(** * zelfbut.js: event reconciliation and the generic Collector

    A shallow embedding of three pieces of the client library:

    - [GuildEmojisUpdate.handle], the emoji list-sync action
      (src/client/actions/GuildEmojisUpdate.js), with [mappify];
    - [GenericAction.getPayload] and [GenericAction.getMessage], the
      partial-message resolver of the action base class, together with
      the parts of [Message] they run: the constructor, [setup] and the
      [partial] getter (src/structures/Message.js);
    - the abstract [Collector]: constructor, [_handle] and [stop], with
      the client timer wrappers [setTimeout] and [clearTimeout] it calls
      (src/client/Client.js).

    JavaScript [Map]s are association lists kept in insertion order;
    an exception is an explicit [Thrown] outcome; the event emitter is a
    log of what was emitted; timers live in an explicit queue driven by
    a millisecond clock. *)

From Stdlib Require Import List String Bool Arith PeanoNat ZArith Lia.
Import ListNotations.

Set Implicit Arguments.

(* ================================================================== *)
(** * JavaScript values used as identifiers *)
(* ================================================================== *)

(** An identifier as the code sees it: a string, or [undefined] when the
    field is missing from the payload, or an explicit [null]. *)
Inductive jsid : Type :=
| Undefined
| Null
| Str (s : string).

Definition jsid_eqb (a b : jsid) : bool :=
  match a, b with
  | Undefined, Undefined => true
  | Null, Null => true
  | Str s, Str t => String.eqb s t
  | _, _ => false
  end.

(** JavaScript truthiness of such a value: only a non-empty string. *)
Definition truthy (v : jsid) : bool :=
  match v with
  | Str s => negb (String.eqb s EmptyString)
  | _ => false
  end.

(** [a || b] *)
Definition js_or (a b : jsid) : jsid := if truthy a then a else b.

(** Outcome of a call: it returns, or an exception escapes. *)
Inductive Completion (A : Type) : Type :=
| Returned (a : A)
| Thrown (err : string).
Arguments Thrown {A} err.

(* ================================================================== *)
(** * Map / Collection *)
(* ================================================================== *)

(** A [Map] (and [Collection], which extends it): entries in insertion
    order, one entry per key. *)
Definition JsMap (V : Type) : Type := list (jsid * V).

Fixpoint map_get {V : Type} (m : JsMap V) (k : jsid) : option V :=
  match m with
  | [] => None
  | (k', v) :: rest => if jsid_eqb k k' then Some v else map_get rest k
  end.

(** [m.set(k, v)]: an existing key keeps its position, a new key goes
    last. *)
Fixpoint map_set {V : Type} (k : jsid) (v : V) (m : JsMap V) : JsMap V :=
  match m with
  | [] => [(k, v)]
  | (k', v') :: rest =>
      if jsid_eqb k k' then (k, v) :: rest else (k', v') :: map_set k v rest
  end.

Fixpoint map_delete {V : Type} (k : jsid) (m : JsMap V) : JsMap V :=
  match m with
  | [] => []
  | (k', v') :: rest =>
      if jsid_eqb k k' then rest else (k', v') :: map_delete k rest
  end.

Definition map_keys {V : Type} (m : JsMap V) : list jsid := map fst m.
Definition map_values {V : Type} (m : JsMap V) : list V := map snd m.
Definition map_entries {V : Type} (m : JsMap V) : list (jsid * V) := m.

Definition mem (k : jsid) (l : list jsid) : bool := existsb (jsid_eqb k) l.

(** No identifier occurs twice. *)
Fixpoint distinct (l : list jsid) : bool :=
  match l with
  | [] => true
  | k :: rest => negb (mem k rest) && distinct rest
  end.

(* ================================================================== *)
(** * GuildEmojisUpdate *)
(* ================================================================== *)

Module GuildEmojisUpdate.

(** [mappify(iterable)]: a fresh Map filled by [set] from the entries. *)
Definition mappify {V : Type} (iterable : list (jsid * V)) : JsMap V :=
  fold_left (fun map x => map_set (fst x) (snd x) map) iterable [].

Section Action.

(** The fields of an emoji other than its id (Emoji.js is not among the
    sources). *)
Variable Fields : Type.

(** One entry of [data.emojis]. *)
Record RawEmoji : Type := { raw_id : jsid; raw_fields : Fields }.

(** A cached emoji. *)
Record Emoji : Type := { emoji_id : jsid; emoji_fields : Fields }.

(** [cachedEmoji.equals(emoji, true)]; its field-level meaning is left
    open, so it is a parameter. *)
Variable equals : Emoji -> RawEmoji -> bool.

Record Guild : Type := { guild_emojis : option (JsMap Emoji) }.

Record Client : Type := { guilds : JsMap Guild }.

Record Data : Type := { data_guild_id : jsid; data_emojis : option (list RawEmoji) }.

(** What the client emits. [Diagnostic] is the client's 'debug' event. *)
Inductive Notification : Type :=
| Updated (old new : Emoji)
| Created (emoji : Emoji)
| Deleted (emoji : Emoji)
| Diagnostic (info : string).

(** Modelled from the spec: the Emoji constructor and [setup], which are
    in Emoji.js (missing). An entity's fields are populated from the last
    payload applied. *)
Definition setup (data : RawEmoji) : Emoji :=
  {| emoji_id := raw_id data; emoji_fields := raw_fields data |}.

(** Modelled from the spec: [GuildEmojiUpdate.handle(cachedEmoji, emoji)]
    (GuildEmojiUpdate.js is missing). The cached entity, found under
    [emoji.id], is updated from the payload, and an 'updated' notification
    carries (old, new). *)
Definition GuildEmojiUpdate_handle (store : JsMap Emoji) (cachedEmoji : Emoji)
    (emoji : RawEmoji) : JsMap Emoji * list Notification :=
  (map_set (raw_id emoji) (setup emoji) store, [Updated cachedEmoji (setup emoji)]).

(** Modelled from the spec: [GuildEmojiCreate.handle(guild, emoji)]
    (GuildEmojiCreate.js is missing). The emoji is created, inserted into
    the store and a 'created' notification is emitted. *)
Definition GuildEmojiCreate_handle (store : JsMap Emoji) (emoji : RawEmoji)
  : JsMap Emoji * list Notification :=
  (map_set (emoji_id (setup emoji)) (setup emoji) store, [Created (setup emoji)]).

(** Modelled from the spec: [GuildEmojiDelete.handle(emoji)]
    (GuildEmojiDelete.js is missing). The emoji is removed from the store
    and a 'deleted' notification is emitted. *)
Definition GuildEmojiDelete_handle (store : JsMap Emoji) (emoji : Emoji)
  : JsMap Emoji * list Notification :=
  (map_delete (emoji_id emoji) store, [Deleted emoji]).

(** State of the two loops of [handle]: the guild's emoji store, the
    [deletions] map, and what has been emitted so far. *)
Record Loop : Type := {
  store : JsMap Emoji;
  deletions : JsMap Emoji;
  emitted : list Notification
}.

(** Body of [for (const emoji of data.emojis)]. *)
Definition sync_emoji (st : Loop) (emoji : RawEmoji) : Loop :=
  match map_get (store st) (raw_id emoji) with
  | Some cachedEmoji =>
      let deletions' := map_delete (raw_id emoji) (deletions st) in
      if negb (equals cachedEmoji emoji) then
        let '(store', out) := GuildEmojiUpdate_handle (store st) cachedEmoji emoji in
        {| store := store'; deletions := deletions'; emitted := emitted st ++ out |}
      else
        {| store := store st; deletions := deletions'; emitted := emitted st |}
  | None =>
      let '(store', out) := GuildEmojiCreate_handle (store st) emoji in
      {| store := store'; deletions := deletions st; emitted := emitted st ++ out |}
  end.

(** Body of [for (const emoji of deletions.values())]. *)
Definition drop_emoji (st : Loop) (emoji : Emoji) : Loop :=
  let '(store', out) := GuildEmojiDelete_handle (store st) emoji in
  {| store := store'; deletions := deletions st; emitted := emitted st ++ out |}.

(** The guild object is shared with the client's cache: what the loops
    did to its emoji store is visible there. *)
Definition with_emojis (client : Client) (gid : jsid) (s : JsMap Emoji) : Client :=
  {| guilds := map_set gid {| guild_emojis := Some s |} (guilds client) |}.

(** [GuildEmojisUpdateAction.handle(data)]. *)
Definition handle (client : Client) (data : Data)
  : Completion (Client * list Notification) :=
  match map_get (guilds client) (data_guild_id data) with
  | None => Returned (client, [])
  | Some guild =>
      match guild_emojis guild with
      | None => Returned (client, [])
      | Some emojis =>
          let deletions0 := mappify (map_entries emojis) in
          match data_emojis data with
          | None => Thrown "TypeError: data.emojis is not iterable"
          | Some payload =>
              let st1 := fold_left sync_emoji payload
                           {| store := emojis; deletions := deletions0; emitted := [] |} in
              let st2 := fold_left drop_emoji (map_values (deletions st1)) st1 in
              Returned (with_emojis client (data_guild_id data) (store st2), emitted st2)
          end
      end
  end.

(** Reading a trace. *)
Definition updated_ids (tr : list Notification) : list jsid :=
  flat_map (fun n => match n with Updated old _ => [emoji_id old] | _ => [] end) tr.

Definition created_ids (tr : list Notification) : list jsid :=
  flat_map (fun n => match n with Created e => [emoji_id e] | _ => [] end) tr.

Definition deleted_ids (tr : list Notification) : list jsid :=
  flat_map (fun n => match n with Deleted e => [emoji_id e] | _ => [] end) tr.

Definition is_diagnostic (n : Notification) : bool :=
  match n with Diagnostic _ => true | _ => false end.

Definition is_deleted (n : Notification) : bool :=
  match n with Deleted _ => true | _ => false end.

Definition is_sync (n : Notification) : bool :=
  match n with Updated _ _ | Created _ => true | _ => false end.

(** Position of a notification kind in the order updates, creates,
    deletes. *)
Definition rank (n : Notification) : nat :=
  match n with
  | Updated _ _ => 0
  | Created _ => 1
  | Deleted _ => 2
  | Diagnostic _ => 3
  end.

(** A trace in which every 'updated' comes before every 'created', and
    every 'created' before every 'deleted'. *)
Fixpoint grouped (tr : list Notification) : bool :=
  match tr with
  | [] => true
  | n :: rest => forallb (fun n' => rank n <=? rank n') rest && grouped rest
  end.

(** What one payload entry yields against a cache [B] that no earlier
    entry touched under this id. *)
Definition classify (B : JsMap Emoji) (emoji : RawEmoji) : list Notification :=
  match map_get B (raw_id emoji) with
  | Some cachedEmoji =>
      if equals cachedEmoji emoji then [] else [Updated cachedEmoji (setup emoji)]
  | None => [Created (setup emoji)]
  end.

(** A cache store as the client keeps it: one entry per key, each emoji
    under its own id. *)
Definition store_ok (B : JsMap Emoji) : bool :=
  distinct (map_keys B) && forallb (fun e => jsid_eqb (emoji_id (snd e)) (fst e)) B.

(** The ids of a payload list. *)
Definition payload_ids (A : list RawEmoji) : list jsid := map raw_id A.

(** The cached entries whose id the payload does not list. *)
Definition unlisted (A : list RawEmoji) (B : JsMap Emoji) : JsMap Emoji :=
  filter (fun e => negb (mem (fst e) (payload_ids A))) B.

(** The guild's emoji store in a client, if it has one. *)
Definition emojis_of (client : Client) (gid : jsid) : option (JsMap Emoji) :=
  match map_get (guilds client) gid with
  | Some guild => guild_emojis guild
  | None => None
  end.

(** Every cached emoji equals the payload entry of its id. *)
Definition in_sync (S : JsMap Emoji) (A : list RawEmoji) : bool :=
  forallb (fun raw => match map_get S (raw_id raw) with
                      | Some cached => equals cached raw
                      | None => true
                      end) A.

End Action.

(** An instance for examples: the only field is the emoji's name, and
    two representations are equal when id and name are. *)
Definition named_equals (cached : Emoji string) (raw : RawEmoji string) : bool :=
  jsid_eqb (emoji_id cached) (raw_id raw)
  && String.eqb (emoji_fields cached) (raw_fields raw).

Definition raw_emoji (id : jsid) (name : string) : RawEmoji string :=
  {| raw_id := id; raw_fields := name |}.

Definition emoji (id : jsid) (name : string) : Emoji string :=
  {| emoji_id := id; emoji_fields := name |}.

(** A client caching guild "g" with the given emoji store. *)
Definition client_with (B : JsMap (Emoji string)) : Client string :=
  {| guilds := [(Str "g", {| guild_emojis := Some B |})] |}.

Definition sync_event (A : list (RawEmoji string)) : Data string :=
  {| data_guild_id := Str "g"; data_emojis := Some A |}.

(** A cache of three emojis, and a list that renames "A", adds "C",
    keeps "D" and no longer has "B". *)
Definition demo_cache : JsMap (Emoji string) :=
  [(Str "A", emoji (Str "A") "a"); (Str "B", emoji (Str "B") "b");
   (Str "D", emoji (Str "D") "d")].

Definition demo_payload : list (RawEmoji string) :=
  [raw_emoji (Str "A") "a2"; raw_emoji (Str "C") "c"; raw_emoji (Str "D") "d"].

Definition demo_synced : JsMap (Emoji string) :=
  [(Str "A", emoji (Str "A") "a2"); (Str "D", emoji (Str "D") "d");
   (Str "C", emoji (Str "C") "c")].

Definition demo_trace : list (Notification string) :=
  [Updated (emoji (Str "A") "a") (emoji (Str "A") "a2");
   Created (emoji (Str "C") "c");
   Deleted (emoji (Str "B") "b")].

(** A client that caches no guild. *)
Definition empty_client : Client string := {| guilds := [] |}.

(** A batch whose first entry has no id. *)
Definition demo_malformed : list (RawEmoji string) :=
  [raw_emoji Undefined "x"; raw_emoji (Str "1") "one"].

End GuildEmojisUpdate.

(* ================================================================== *)
(** * GenericAction: getPayload and getMessage *)
(* ================================================================== *)

Module GenericAction.

(** [Constants.PartialTypes] (Constants.js is not among the sources). *)
Inductive PartialType : Type := USER | CHANNEL | GUILD_MEMBER | MESSAGE | REACTION.

Definition PartialType_eqb (a b : PartialType) : bool :=
  match a, b with
  | USER, USER | CHANNEL, CHANNEL | GUILD_MEMBER, GUILD_MEMBER
  | MESSAGE, MESSAGE | REACTION, REACTION => true
  | _, _ => false
  end.

(** [partials.includes(partialType)] *)
Definition includes (l : list PartialType) (p : PartialType) : bool :=
  existsb (PartialType_eqb p) l.

(** The payload handed to [getPayload] and to the [Message] constructor.
    A value of this type is a payload that carries these five fields at
    most: the three [getMessage] fills in, and the two [partial] depends
    on. A payload with embeds, attachments, reactions, flags, stickers
    or a member goes through more of [setup] and is not described. *)
Record RawMessage : Type := {
  raw_id : jsid;
  raw_channel_id : jsid;
  raw_guild_id : jsid;
  raw_content : option string;
  raw_author : option string
}.

(** A [Message], with the fields the resolver and [partial] depend on.
    [msg_channel] is the id of the channel object it was built with. *)
Record Message : Type := {
  msg_id : jsid;
  msg_channel : jsid;
  msg_deleted : bool;
  msg_content : option string;
  msg_author : option string
}.

(** What a manager holds. [Message] defines [patch] but no [_patch];
    [Patchable] stands for an entity class that does define [_patch], and
    records the payloads it was patched with, latest first. *)
Inductive Entity : Type :=
| EMessage (m : Message)
| Patchable (id : jsid) (patches : list RawMessage).

(** [existing._patch] is defined *)
Definition has__patch (e : Entity) : bool :=
  match e with Patchable _ _ => true | EMessage _ => false end.

(** [existing._patch(data)] *)
Definition _patch (e : Entity) (data : RawMessage) : Entity :=
  match e with
  | Patchable id ps => Patchable id (data :: ps)
  | EMessage m => EMessage m
  end.

(** A channel: its id, the id of its guild if it has one, its message
    store. A store slot can hold [undefined] ([None]). *)
Record Channel : Type := {
  ch_id : jsid;
  ch_guild : option jsid;
  ch_messages : JsMap (option Entity)
}.

Record Client : Type := {
  partials : list PartialType;
  channels : JsMap Channel
}.

(** The class passed as [cls]. *)
Inductive Cls : Type := ClsMessage | ClsOther.

(** A request sent to the REST API. *)
Inductive Request : Type := FetchMessage (channel message : jsid).

(** [manager.get(id)] as the code reads it: [undefined] both for a
    missing key and for a slot holding [undefined]. *)
Definition js_get (manager : JsMap (option Entity)) (id : jsid) : option Entity :=
  match map_get manager id with
  | Some v => v
  | None => None
  end.

(** [data.content || null] *)
Definition content_or_null (c : option string) : option string :=
  match c with
  | Some s => if String.eqb s EmptyString then None else Some s
  | None => None
  end.

(** [new Message(channel, data, client)] on such a payload: the
    constructor runs [setup], which finds every other field of the
    payload undefined and takes none of the branches that walk through
    it, and which ends by reading [this.guild], that is
    [this.channel.guild]; this throws when [channel] is [undefined]. *)
Definition new_Message (channel : option Channel) (data : RawMessage)
  : Completion Message :=
  match channel with
  | None => Thrown "TypeError: Cannot read property 'guild' of undefined"
  | Some ch =>
      Returned {| msg_id := raw_id data;
                  msg_channel := ch_id ch;
                  msg_deleted := false;
                  msg_content := content_or_null (raw_content data);
                  msg_author := raw_author data |}
  end.

(** [get partial()]: [typeof this.content !== 'string' || !this.author] *)
Definition partial (m : Message) : bool :=
  match msg_content m with
  | None => true
  | Some _ => match msg_author m with None => true | Some _ => false end
  end.

(** [fetch(force)]: [this.channel.fetchMessage(this.id)], a REST call. *)
Definition fetch (m : Message) : list Request :=
  [FetchMessage (msg_channel m) (msg_id m)].

(** What a resolver call leaves behind: the value returned, the manager
    afterwards, the requests sent. *)
Record Outcome : Type := {
  result : option Entity;
  manager_after : JsMap (option Entity);
  requests : list Request
}.

(** [getPayload(data, manager, id, partialType, cache, cls)] *)
Definition getPayload (client : Client) (data : RawMessage)
    (manager : JsMap (option Entity)) (id : jsid) (partialType : PartialType)
    (cache : bool) (cls : Cls) : Completion Outcome :=
  match js_get manager id with
  | Some existing =>
      Returned {| result := Some existing; manager_after := manager; requests := [] |}
  | None =>
      if includes (partials client) partialType then
        let key := js_or id (raw_id data) in
        match js_get manager key with
        | Some existing =>
            if has__patch existing && cache then
              let patched := _patch existing data in
              Returned {| result := Some patched;
                          manager_after := map_set key (Some patched) manager;
                          requests := [] |}
            else
              Returned {| result := Some existing; manager_after := manager;
                          requests := [] |}
        | None =>
            match cls with
            | ClsMessage =>
                match new_Message (map_get (channels client) (raw_channel_id data)) data with
                | Thrown err => Thrown err
                | Returned m =>
                    let entry := EMessage m in
                    Returned {| result := Some entry;
                                manager_after :=
                                  if cache
                                  then map_set (js_or id (msg_id m)) (Some entry) manager
                                  else manager;
                                requests := [] |}
                end
            | ClsOther =>
                (* entry stays undefined *)
                if cache then
                  if truthy id then
                    Returned {| result := None;
                                manager_after := map_set id None manager;
                                requests := [] |}
                  else Thrown "TypeError: Cannot read property 'id' of undefined"
                else
                  Returned {| result := None; manager_after := manager; requests := [] |}
            end
        end
      else
        Returned {| result := None; manager_after := manager; requests := [] |}
  end.

(** The event handed to [getMessage]. *)
Record EventData : Type := {
  ev_message_id : jsid;
  ev_id : jsid;
  ev_message : option Message;
  ev_guild_id : jsid
}.

(** The payload [getMessage] builds for [getPayload]. *)
Definition reference_payload (data : EventData) (channel : Channel) : RawMessage :=
  {| raw_id := js_or (ev_message_id data) (ev_id data);
     raw_channel_id := ch_id channel;
     raw_guild_id :=
       js_or (ev_guild_id data)
             (match ch_guild channel with Some g => g | None => Null end);
     raw_content := None;
     raw_author := None |}.

(** [getMessage(data, channel, cache)] *)
Definition getMessage (client : Client) (data : EventData) (channel : Channel)
    (cache : bool) : Completion Outcome :=
  let id := js_or (ev_message_id data) (ev_id data) in
  match ev_message data with
  | Some m =>
      Returned {| result := Some (EMessage m);
                  manager_after := ch_messages channel;
                  requests := [] |}
  | None =>
      getPayload client (reference_payload data channel) (ch_messages channel)
                 id MESSAGE cache ClsMessage
  end.

(** Examples: a client that allows message partials and caches channel
    "c", whose store holds a patchable entity under "m". *)
Definition demo_store : JsMap (option Entity) :=
  [(Str "m", Some (Patchable (Str "m") []))].

Definition demo_channel : Channel :=
  {| ch_id := Str "c"; ch_guild := Some (Str "g"); ch_messages := demo_store |}.

Definition demo_client : Client :=
  {| partials := [MESSAGE]; channels := [(Str "c", demo_channel)] |}.

(** An event that refers to message [id] and carries no message. *)
Definition reference_to (id : jsid) : EventData :=
  {| ev_message_id := id; ev_id := Undefined; ev_message := None;
     ev_guild_id := Undefined |}.

(** A client that allows message partials and caches no channel. *)
Definition stranger_client : Client :=
  {| partials := [MESSAGE]; channels := [] |}.

(** A payload for message "n" of channel "c" that carries content and
    author. *)
Definition demo_full : RawMessage :=
  {| raw_id := Str "n"; raw_channel_id := Str "c"; raw_guild_id := Str "g";
     raw_content := Some "hello"%string; raw_author := Some "u"%string |}.

(** The stub built for message "n" of channel "c". *)
Definition demo_stub : Message :=
  {| msg_id := Str "n"; msg_channel := Str "c"; msg_deleted := false;
     msg_content := None; msg_author := None |}.

End GenericAction.

(* ================================================================== *)
(** * Collector *)
(* ================================================================== *)

Module Collector.

(** [CollectorOptions]: each field a number of milliseconds, or absent. *)
Record CollectorOptions : Type := {
  time : option nat;
  idle : option nat
}.

(** [if (options.time)]: present and not zero. *)
Definition given (o : option nat) : bool :=
  match o with
  | Some (S _) => true
  | _ => false
  end.

(** The delay [setTimeout] gets from an option. *)
Definition delay_of (o : option nat) : nat :=
  match o with Some d => d | None => 0 end.

(** The closures the collector schedules: [() => this.stop(reason)]. *)
Inductive Callback : Type := StopWith (reason : string).

(** A timeout the platform holds. *)
Record Timer : Type := {
  timer_id : nat;
  due : nat;
  callback : Callback
}.

(** The platform clock and timer queue, and the client's [_timeouts]
    set. *)
Record Env : Type := {
  now : nat;
  next_handle : nat;
  scheduled : list Timer;
  _timeouts : list nat
}.

Definition without (i : nat) (l : list Timer) : list Timer :=
  filter (fun t => negb (timer_id t =? i)) l.

Definition set_delete (i : nat) (l : list nat) : list nat :=
  filter (fun j => negb (j =? i)) l.

(** The longest delay the platform's [setTimeout] keeps: 2^31 - 1 ms. *)
Definition TIMEOUT_MAX : N := 2147483647.

(** The delay the platform's [setTimeout(fn, after)] runs with: a delay
    from 1 to [TIMEOUT_MAX] is kept, any other is set to 1. *)
Definition platform_delay (after : nat) : nat :=
  if (1 <=? after) && (N.of_nat after <=? TIMEOUT_MAX)%N then after else 1.

(** [client.setTimeout(action, interval)]: the platform schedules the
    wrapped action, the handle is added to [_timeouts] and returned. *)
Definition setTimeout (e : Env) (action : Callback) (interval : nat) : Env * nat :=
  let i := next_handle e in
  ({| now := now e;
      next_handle := S i;
      scheduled := scheduled e ++ [{| timer_id := i;
                                      due := now e + platform_delay interval;
                                      callback := action |}];
      _timeouts := _timeouts e ++ [i] |}, i).

(** [client.clearTimeout(timeout)] *)
Definition clearTimeout (e : Env) (timeout : nat) : Env :=
  {| now := now e;
     next_handle := next_handle e;
     scheduled := without timeout (scheduled e);
     _timeouts := set_delete timeout (_timeouts e) |}.

(** A client with nothing scheduled, at time [t0]. *)
Definition fresh_env (t0 : nat) : Env :=
  {| now := t0; next_handle := 0; scheduled := []; _timeouts := [] |}.

Section Abstract.

(** The arguments the listener receives, and the collected values. *)
Variable Args : Type.
Variable Value : Type.

(** The fields of a collector instance. A timer handle, when present, is
    an object, hence truthy. *)
Record Collector : Type := {
  options : CollectorOptions;
  collected : JsMap Value;
  ended : bool;
  _timeout : option nat;
  _idletimeout : option nat
}.

(** What the collector emits. *)
Inductive Emitted : Type :=
| Collect (value : Value)
| FullCollect (args : Args)
| End (collected : JsMap Value) (reason : string).

(** The collector in its surroundings: timers, what it has emitted so
    far, and how many times the [cleanup] hook ran. *)
Record World : Type := {
  env : Env;
  self : Collector;
  emitted : list Emitted;
  cleanups : nat
}.

(** The user filter and the abstract methods a subclass supplies; they
    read the event and the collector. *)
Variable filter : Args -> JsMap Value -> bool.
Variable handle : Args -> Collector -> option (jsid * Value).
Variable postCheck : Args -> Collector -> option string.

(** [new Collector(client, filter, options)] *)
Definition new_Collector (e : Env) (opts : CollectorOptions) : World :=
  let '(e1, t1) :=
    if given (time opts)
    then let '(e', i) := setTimeout e (StopWith "time") (delay_of (time opts)) in
         (e', Some i)
    else (e, None) in
  let '(e2, t2) :=
    if given (idle opts)
    then let '(e', i) := setTimeout e1 (StopWith "idle") (delay_of (idle opts)) in
         (e', Some i)
    else (e1, None) in
  {| env := e2;
     self := {| options := opts; collected := []; ended := false;
                _timeout := t1; _idletimeout := t2 |};
     emitted := [];
     cleanups := 0 |}.

(** [stop(reason)] *)
Definition stop (reason : option string) (w : World) : World :=
  let reason := match reason with None => "user"%string | Some r => r end in
  if ended (self w) then w
  else
    let e1 := match _timeout (self w) with
              | Some t => clearTimeout (env w) t
              | None => env w
              end in
    let e2 := match _idletimeout (self w) with
              | Some t => clearTimeout e1 t
              | None => e1
              end in
    {| env := e2;
       self := {| options := options (self w);
                  collected := collected (self w);
                  ended := true;
                  _timeout := None;
                  _idletimeout := None |};
       emitted := emitted w ++ [End (collected (self w)) reason];
       cleanups := S (cleanups w) |}.

(** The first half of [_handle]: collect the event if [handle] yields an
    entry and the filter accepts it, then restart the idle timer. *)
Definition collect_event (args : Args) (w : World) : World :=
  match handle args (self w) with
  | Some (key, value) =>
      if filter args (collected (self w)) then
        let collected' := map_set key value (collected (self w)) in
        let emitted' := emitted w ++ [Collect value; FullCollect args] in
        match _idletimeout (self w) with
        | Some t =>
            let '(e', t') :=
              setTimeout (clearTimeout (env w) t) (StopWith "idle")
                         (delay_of (idle (options (self w)))) in
            {| env := e';
               self := {| options := options (self w);
                          collected := collected';
                          ended := ended (self w);
                          _timeout := _timeout (self w);
                          _idletimeout := Some t' |};
               emitted := emitted';
               cleanups := cleanups w |}
        | None =>
            {| env := env w;
               self := {| options := options (self w);
                          collected := collected';
                          ended := ended (self w);
                          _timeout := _timeout (self w);
                          _idletimeout := None |};
               emitted := emitted';
               cleanups := cleanups w |}
        end
      else w
  | None => w
  end.

(** [if (post)] for a string or null. *)
Definition truthy_reason (post : option string) : option string :=
  match post with
  | Some r => if String.eqb r EmptyString then None else Some r
  | None => None
  end.

(** [_handle(...args)] *)
Definition _handle (args : Args) (w : World) : World :=
  let w1 := collect_event args w in
  match truthy_reason (postCheck args (self w1)) with
  | Some post => stop (Some post) w1
  | None => w1
  end.

(** The platform fires a timeout: it leaves the queue, the wrapped
    action runs, then the wrapper drops the handle from [_timeouts]. *)
Definition fire (t : Timer) (w : World) : World :=
  let w0 := {| env := {| now := Nat.max (now (env w)) (due t);
                         next_handle := next_handle (env w);
                         scheduled := without (timer_id t) (scheduled (env w));
                         _timeouts := _timeouts (env w) |};
               self := self w; emitted := emitted w; cleanups := cleanups w |} in
  let w1 := match callback t with StopWith reason => stop (Some reason) w0 end in
  {| env := {| now := now (env w1);
               next_handle := next_handle (env w1);
               scheduled := scheduled (env w1);
               _timeouts := set_delete (timer_id t) (_timeouts (env w1)) |};
     self := self w1; emitted := emitted w1; cleanups := cleanups w1 |}.

(** The timeout that is due first; among equals, the one scheduled
    first. *)
Fixpoint earliest (l : list Timer) : option Timer :=
  match l with
  | [] => None
  | t :: rest =>
      match earliest rest with
      | Some u => if due t <=? due u then Some t else Some u
      | None => Some t
      end
  end.

Definition set_now (t : nat) (w : World) : World :=
  {| env := {| now := Nat.max (now (env w)) t;
               next_handle := next_handle (env w);
               scheduled := scheduled (env w);
               _timeouts := _timeouts (env w) |};
     self := self w; emitted := emitted w; cleanups := cleanups w |}.

(** Let the clock run to [t], firing in order what falls due. Each round
    fires one timeout; [fuel] bounds the rounds. *)
Fixpoint advance_fuel (fuel : nat) (t : nat) (w : World) : World :=
  match fuel with
  | 0 => set_now t w
  | S fuel' =>
      match earliest (scheduled (env w)) with
      | Some tm =>
          if due tm <=? t then advance_fuel fuel' t (fire tm w) else set_now t w
      | None => set_now t w
      end
  end.

Definition advance_to (t : nat) (w : World) : World :=
  advance_fuel (List.length (scheduled (env w))) t w.

(** What can happen to a collector. *)
Inductive Op : Type :=
| CallStop (reason : option string)
| Deliver (args : Args)
| Advance (t : nat).

Definition apply_op (w : World) (op : Op) : World :=
  match op with
  | CallStop reason => stop reason w
  | Deliver args => _handle args w
  | Advance t => advance_to t w
  end.

Definition run (ops : list Op) (w : World) : World := fold_left apply_op ops w.

Definition count_end (l : list Emitted) : nat :=
  List.length (List.filter (fun e => match e with End _ _ => true | _ => false end) l).

(** A collector created at time [t0] on a client with nothing else
    scheduled, after the operations [ops]. *)
Definition started (t0 : nat) (opts : CollectorOptions) (ops : list Op) : World :=
  run ops (new_Collector (fresh_env t0) opts).

(** What holds of a collector created with [opts], whatever happened to
    it since: 'end' was emitted once if it has ended and never
    otherwise, and [cleanup] ran as often; an ended collector holds no
    timer; every scheduled timeout is one of its two; an active one
    with an idle option holds an idle timer; handles are ones the
    client has given out. *)
Record consistent (opts : CollectorOptions) (w : World) : Prop := {
  keeps_options : options (self w) = opts;
  end_once : count_end (emitted w) = if ended (self w) then 1 else 0;
  cleanup_once : cleanups w = count_end (emitted w);
  ended_no_timer :
    ended (self w) = true -> _timeout (self w) = None /\ _idletimeout (self w) = None;
  timers_owned :
    forall tm, In tm (scheduled (env w)) ->
               _timeout (self w) = Some (timer_id tm) \/
               _idletimeout (self w) = Some (timer_id tm);
  idle_armed :
    ended (self w) = false -> given (idle opts) = true ->
    exists t, _idletimeout (self w) = Some t;
  no_time_timer : given (time opts) = false -> _timeout (self w) = None;
  handles_known :
    forall t, _timeout (self w) = Some t \/ _idletimeout (self w) = Some t ->
              t < next_handle (env w)
}.

End Abstract.

(** Example hooks over numbered events: a collector that keeps every
    event under key "k" and never asks to end, and one that collects
    nothing and asks to end with 'limit' on every event. *)
Definition accept_all (args : nat) (collected : JsMap nat) : bool := true.

Definition keep_event (args : nat) (c : Collector nat) : option (jsid * nat) :=
  Some (Str "k", args).

Definition keep_nothing (args : nat) (c : Collector nat) : option (jsid * nat) := None.

Definition never_done (args : nat) (c : Collector nat) : option string := None.

Definition always_limit (args : nat) (c : Collector nat) : option string :=
  Some "limit"%string.

(** A postCheck that returns the empty string on every event. *)
Definition always_empty (args : nat) (c : Collector nat) : option string :=
  Some EmptyString.

(** The options of the idle example: no time limit, 100 ms of idle. *)
Definition idle_100 : CollectorOptions := {| time := None; idle := Some 100 |}.

End Collector.

(* ================================================================== *)
(** * More of the Collector and of the client timers *)
(* ================================================================== *)

Module Timers.

Import Collector.

(** An interval the platform holds: its handle and its period. *)
Record Interval : Type := {
  interval_id : nat;
  period : nat
}.

(** The timer side of a client (Client.js and WebhookClient.js carry the
    same code): the timeouts, and the platform's intervals with the
    client's [_intervals] set. *)
Record Host : Type := {
  timeouts : Env;
  interval_queue : list Interval;
  next_interval : nat;
  _intervals : list nat
}.

Definition fresh_host (t0 : nat) : Host :=
  {| timeouts := fresh_env t0; interval_queue := []; next_interval := 0;
     _intervals := [] |}.

(** [setInterval(fn, timeout)]: the platform schedules it, with the
    period it keeps of [timeout], the handle is added to [_intervals]
    and returned. *)
Definition setInterval (h : Host) (timeout : nat) : Host * nat :=
  let id := next_interval h in
  ({| timeouts := timeouts h;
      interval_queue :=
        interval_queue h ++ [{| interval_id := id; period := platform_delay timeout |}];
      next_interval := S id;
      _intervals := _intervals h ++ [id] |}, id).

(** [clearInterval(interval)] *)
Definition clearInterval (h : Host) (interval : nat) : Host :=
  {| timeouts := timeouts h;
     interval_queue :=
       filter (fun i => negb (interval_id i =? interval)) (interval_queue h);
     next_interval := next_interval h;
     _intervals := set_delete interval (_intervals h) |}.

(** The timeout half of [destroy()]: the platform's [clearTimeout] for
    every handle in [_timeouts], then [_timeouts.clear()]. *)
Definition destroy_timeouts (e : Env) : Env :=
  {| now := now e;
     next_handle := next_handle e;
     scheduled := fold_left (fun q t => without t q) (_timeouts e) (scheduled e);
     _timeouts := [] |}.

(** [destroy()] of WebhookClient; Client's does the same and then hands
    over to its connection manager. *)
Definition destroy (h : Host) : Host :=
  {| timeouts := destroy_timeouts (timeouts h);
     interval_queue :=
       fold_left (fun q i => filter (fun x => negb (interval_id x =? i)) q)
                 (_intervals h) (interval_queue h);
     next_interval := next_interval h;
     _intervals := [] |}.

(** What a program does with the timers of a client. *)
Inductive HostOp : Type :=
| DoSetTimeout (action : Callback) (interval : nat)
| DoClearTimeout (timeout : nat)
| DoSetInterval (timeout : nat)
| DoClearInterval (interval : nat).

Definition host_op (h : Host) (op : HostOp) : Host :=
  match op with
  | DoSetTimeout action interval =>
      {| timeouts := fst (setTimeout (timeouts h) action interval);
         interval_queue := interval_queue h;
         next_interval := next_interval h;
         _intervals := _intervals h |}
  | DoClearTimeout timeout =>
      {| timeouts := clearTimeout (timeouts h) timeout;
         interval_queue := interval_queue h;
         next_interval := next_interval h;
         _intervals := _intervals h |}
  | DoSetInterval timeout => fst (setInterval h timeout)
  | DoClearInterval interval => clearInterval h interval
  end.

Definition host_run (ops : list HostOp) (h : Host) : Host := fold_left host_op ops h.

(** The sets list exactly what the platform holds. *)
Definition tracked (e : Env) : Prop := map timer_id (scheduled e) = _timeouts e.

Definition intervals_tracked (h : Host) : Prop :=
  map interval_id (interval_queue h) = _intervals h.

Section OfCollector.

Variables Args Value : Type.


(** An active collector with a time option holds the timer scheduled at
    its creation; its two handles differ. *)
Record armed (t0 : nat) (opts : CollectorOptions) (w : World Args Value) : Prop := {
  time_armed :
    ended (self w) = false -> given (time opts) = true ->
    exists tm, In tm (scheduled (env w)) /\
               _timeout (self w) = Some (timer_id tm) /\
               due tm = t0 + platform_delay (delay_of (time opts));
  handles_differ :
    forall a b, _timeout (self w) = Some a -> _idletimeout (self w) = Some b -> a <> b;
  idle_unarmed : given (idle opts) = false -> _idletimeout (self w) = None
}.


End OfCollector.

End Timers.

(* ================================================================== *)
(** * Client: heartbeat pings *)
(* ================================================================== *)

Module ClientPings.

Local Open Scope Z_scope.

(** [_pong(startTime)] at time [now], on [pings]: the latency goes
    first, and the array is cut to three elements. (It also marks the
    last heartbeat of the websocket as acknowledged; the websocket is
    not part of this state.) *)
Definition _pong (now startTime : Z) (pings : list Z) : list Z :=
  let pings' := (now - startTime) :: pings in
  if (3 <? List.length pings')%nat then firstn 3 pings' else pings'.

(** The pings after a series of heartbeats, each given as the time of
    the acknowledgement and the time of the start; [pings] starts
    empty. *)
Definition pong_all (beats : list (Z * Z)) : list Z :=
  fold_left (fun pings b => _pong (fst b) (snd b) pings) beats [].

End ClientPings.

(* ================================================================== *)
(** * Message: reactions *)
(* ================================================================== *)

Module Reactions.

Local Open Scope Z_scope.

Record ReactionEmoji : Type := { emoji_id : jsid; emoji_name : string }.

Record User : Type := { user_id : string }.

(** A [MessageReaction], with the fields [Message] reads and writes.
    MessageReaction.js is not among the sources: its constructor
    [new MessageReaction(message, emoji, count, me)] is taken to store
    [count] and [me] and to start with no users. *)
Record MessageReaction : Type := {
  reaction_emoji : ReactionEmoji;
  count : Z;
  me : bool;
  users : JsMap User
}.

Definition new_MessageReaction (emoji : ReactionEmoji) (count : Z) (me : bool)
  : MessageReaction :=
  {| reaction_emoji := emoji; count := count; me := me; users := [] |}.

(** The key of a reaction: [name:id] for a custom emoji, the name
    otherwise. *)
Definition emojiID (emoji : ReactionEmoji) : jsid :=
  match emoji_id emoji with
  | Str id =>
      if truthy (Str id)
      then Str (emoji_name emoji ++ ":" ++ id)
      else Str (emoji_name emoji)
  | _ => Str (emoji_name emoji)
  end.

(** [_addReaction(emoji, user)], on the message's [reactions]; [self] is
    [client.user.id]. Returns the reactions afterwards and the
    reaction. *)
Definition _addReaction (self : string) (reactions : JsMap MessageReaction)
    (emoji : ReactionEmoji) (user : User)
  : JsMap MessageReaction * MessageReaction :=
  let key := emojiID emoji in
  let reaction :=
    match map_get reactions key with
    | Some r =>
        if negb (me r)
        then {| reaction_emoji := reaction_emoji r; count := count r;
                me := String.eqb (user_id user) self; users := users r |}
        else r
    | None => new_MessageReaction emoji 0 (String.eqb (user_id user) self)
    end in
  let reaction' :=
    match map_get (users reaction) (Str (user_id user)) with
    | Some _ => reaction
    | None =>
        {| reaction_emoji := reaction_emoji reaction;
           count := count reaction + 1;
           me := me reaction;
           users := map_set (Str (user_id user)) user (users reaction) |}
    end in
  (map_set key reaction' reactions, reaction').

(** [_removeReaction(emoji, user)]; [user] may be absent. Returns the
    reactions afterwards and the reaction, or null. *)
Definition _removeReaction (self : string) (reactions : JsMap MessageReaction)
    (emoji : ReactionEmoji) (user : option User)
  : JsMap MessageReaction * option MessageReaction :=
  let key := emojiID emoji in
  match map_get reactions key with
  | Some reaction =>
      match user with
      | None => (map_delete key reactions, Some reaction)
      | Some u =>
          match map_get (users reaction) (Str (user_id u)) with
          | Some _ =>
              let reaction' :=
                {| reaction_emoji := reaction_emoji reaction;
                   count := count reaction - 1;
                   me := if String.eqb (user_id u) self then false else me reaction;
                   users := map_delete (Str (user_id u)) (users reaction) |} in
              if count reaction' <=? 0
              then (map_delete key reactions, Some reaction')
              else (map_set key reaction' reactions, Some reaction')
          | None => (reactions, None)
          end
      end
  | None => (reactions, None)
  end.

(** [_clearReactions()] *)
Definition _clearReactions (reactions : JsMap MessageReaction) : JsMap MessageReaction := [].

(** The number of users a reaction knows. *)
Definition known (r : MessageReaction) : Z := Z.of_nat (List.length (users r)).

End Reactions.

(* ================================================================== *)
(** * BitField *)
(* ================================================================== *)

Module BitField.

Local Open Scope Z_scope.

(** The bitwise operators of JavaScript work on 32-bit integers: each
    operand goes through ToInt32, the operator acts on the two's
    complement bit patterns, and the result is a signed 32-bit integer.
    [u32] is the bit pattern of a number read as unsigned, [s32] reads a
    pattern back as signed. Numbers are integers here. *)
Definition u32 (z : Z) : Z := z mod 2 ^ 32.

Definition s32 (u : Z) : Z := if u <? 2 ^ 31 then u else u - 2 ^ 32.

Definition to_int32 (z : Z) : Z := s32 (u32 z).

(** [a & b] *)
Definition band (a b : Z) : Z := s32 (Z.land (u32 a) (u32 b)).

(** [a | b] *)
Definition bor (a b : Z) : Z := s32 (Z.lor (u32 a) (u32 b)).

(** [~a] *)
Definition bnot (a : Z) : Z := Z.lnot (to_int32 a).

(** A [BitFieldResolvable]; [RInstance] is a BitField instance, given by
    its [bitfield]. *)
#[warnings="-register-all"]
Inductive Resolvable : Type :=
| RUndefined
| RNumber (n : Z)
| RString (s : string)
| RInstance (bitfield : Z)
| RArray (l : list Resolvable).

Definition is_array (bit : Resolvable) : bool :=
  match bit with RArray _ => true | _ => false end.

Definition invalid : string := "RangeError: Invalid bitfield flag or number.".

Section Flags.

(** [this.constructor.FLAGS]: the own keys of the object, in order, with
    their numbers. [FLAGS[bit]] is read among these: a string is a flag
    name or no name at all. The names a plain object inherits
    ('constructor', 'toString' and the like), for which [FLAGS[bit]] is
    a function and no number, are not described. *)
Variable FLAGS : list (string * Z).

Fixpoint flag (name : string) (flags : list (string * Z)) : option Z :=
  match flags with
  | [] => None
  | (k, v) :: rest => if String.eqb name k then Some v else flag name rest
  end.

(** [static resolve(bit)] *)
Fixpoint resolve (bit : Resolvable) : Completion Z :=
  match bit with
  | RUndefined => Returned 0
  | RNumber n => if 0 <=? n then Returned n else Thrown invalid
  | RInstance b => Returned b
  | RArray l =>
      (* bit.map(p => this.resolve(p)).reduce((prev, p) => prev | p, 0) *)
      match
        (fix each (l : list Resolvable) : Completion (list Z) :=
           match l with
           | [] => Returned []
           | p :: rest =>
               match resolve p with
               | Thrown err => Thrown err
               | Returned v =>
                   match each rest with
                   | Thrown err => Thrown err
                   | Returned vs => Returned (v :: vs)
                   end
               end
           end) l
      with
      | Thrown err => Thrown err
      | Returned vs => Returned (fold_left bor vs 0)
      end
  | RString s =>
      if String.eqb s EmptyString then Returned 0
      else match flag s FLAGS with
           | Some v => Returned v
           | None => Thrown invalid
           end
  end.

(** [bits.map(p => this.resolve(p))] *)
Fixpoint resolve_all (bits : list Resolvable) : Completion (list Z) :=
  match bits with
  | [] => Returned []
  | p :: rest =>
      match resolve p with
      | Thrown err => Thrown err
      | Returned v =>
          match resolve_all rest with
          | Thrown err => Thrown err
          | Returned vs => Returned (v :: vs)
          end
      end
  end.

(** An instance: its [bitfield], and whether it was frozen. *)
Record Instance : Type := { bitfield : Z; frozen : bool }.

(** [new BitField(bits)] *)
Definition new_BitField (bits : Resolvable) : Completion Instance :=
  match resolve bits with
  | Returned v => Returned {| bitfield := v; frozen := false |}
  | Thrown err => Thrown err
  end.

(** [any(bit)] *)
Definition any (this : Z) (bit : Resolvable) : Completion bool :=
  match resolve bit with
  | Returned v => Returned (negb (band this v =? 0))
  | Thrown err => Thrown err
  end.

(** [equals(bit)] *)
Definition equals (this : Z) (bit : Resolvable) : Completion bool :=
  match resolve bit with
  | Returned v => Returned (this =? v)
  | Thrown err => Thrown err
  end.

(** [has(bit)]; on an array, [every] stops at the first element that is
    not had. *)
Fixpoint has (this : Z) (bit : Resolvable) : Completion bool :=
  match bit with
  | RArray l =>
      (fix every (l : list Resolvable) : Completion bool :=
         match l with
         | [] => Returned true
         | p :: rest =>
             match has this p with
             | Thrown err => Thrown err
             | Returned false => Returned false
             | Returned true => every rest
             end
         end) l
  | _ =>
      match resolve bit with
      | Returned v => Returned (band this v =? v)
      | Thrown err => Thrown err
      end
  end.

(** [freeze()] *)
Definition freeze (this : Instance) : Instance :=
  {| bitfield := bitfield this; frozen := true |}.

(** The loop of [add] and [remove]: [total |= resolve(bit)]. *)
Fixpoint total_of (bits : list Resolvable) (total : Z) : Completion Z :=
  match bits with
  | [] => Returned total
  | bit :: rest =>
      match resolve bit with
      | Thrown err => Thrown err
      | Returned v => total_of rest (bor total v)
      end
  end.

(** [add(...bits)]: the instance afterwards, and the value returned. *)
Definition add (this : Instance) (bits : list Resolvable)
  : Completion (Instance * Instance) :=
  match total_of bits 0 with
  | Thrown err => Thrown err
  | Returned total =>
      if frozen this then
        match new_BitField (RNumber (bor (bitfield this) total)) with
        | Thrown err => Thrown err
        | Returned fresh => Returned (this, fresh)
        end
      else
        let this' := {| bitfield := bor (bitfield this) total; frozen := false |} in
        Returned (this', this')
  end.

(** [remove(...bits)] *)
Definition remove (this : Instance) (bits : list Resolvable)
  : Completion (Instance * Instance) :=
  match total_of bits 0 with
  | Thrown err => Thrown err
  | Returned total =>
      if frozen this then
        match new_BitField (RNumber (band (bitfield this) (bnot total))) with
        | Thrown err => Thrown err
        | Returned fresh => Returned (this, fresh)
        end
      else
        let this' := {| bitfield := band (bitfield this) (bnot total);
                        frozen := false |} in
        Returned (this', this')
  end.

(** [l.filter(x => keep(this.has(x)))] *)
Fixpoint filter_by_has (keep : bool -> bool) (this : Z) (l : list Resolvable)
  : Completion (list Resolvable) :=
  match l with
  | [] => Returned []
  | x :: rest =>
      match has this x with
      | Thrown err => Thrown err
      | Returned b =>
          match filter_by_has keep this rest with
          | Thrown err => Thrown err
          | Returned kept => Returned (if keep b then x :: kept else kept)
          end
      end
  end.

(** [toArray()]: the names of [FLAGS] the bitfield has. *)
Definition toArray (this : Z) : Completion (list Resolvable) :=
  filter_by_has (fun b => b) this (map RString (map fst FLAGS)).

(** [serialize()]: each name of [FLAGS] with whether the bitfield has its
    number. *)
Fixpoint serialize_from (this : Z) (flags : list (string * Z))
  : Completion (list (string * bool)) :=
  match flags with
  | [] => Returned []
  | (name, _) :: rest =>
      match flag name FLAGS with
      | None => Thrown invalid
      | Some v =>
          match has this (RNumber v) with
          | Thrown err => Thrown err
          | Returned b =>
              match serialize_from this rest with
              | Thrown err => Thrown err
              | Returned s => Returned ((name, b) :: s)
              end
          end
      end
  end.

Definition serialize (this : Z) : Completion (list (string * bool)) :=
  serialize_from this FLAGS.

(** [missing(b)]: of the given bits, those the bitfield does not have. *)
Definition missing (this : Z) (b : Resolvable) : Completion (list Resolvable) :=
  match b with
  | RArray l => filter_by_has negb this l
  | _ =>
      match new_BitField b with
      | Thrown err => Thrown err
      | Returned other =>
          match toArray (bitfield other) with
          | Thrown err => Thrown err
          | Returned names => filter_by_has negb this names
          end
      end
  end.

(** Flags as a subclass declares them: each name once and not empty,
    each number at least 0. *)
Fixpoint names_distinct (names : list string) : bool :=
  match names with
  | [] => true
  | n :: rest => negb (existsb (String.eqb n) rest) && names_distinct rest
  end.

Definition flags_ok : bool :=
  names_distinct (map fst FLAGS)
  && forallb (fun f => negb (String.eqb (fst f) EmptyString) && (0 <=? snd f)) FLAGS.

End Flags.

(** Example flags: those of a message. *)
Definition message_flags : list (string * Z) :=
  [("CROSSPOSTED"%string, 1); ("IS_CROSSPOST"%string, 2);
   ("SUPPRESS_EMBEDS"%string, 4); ("SOURCE_MESSAGE_DELETED"%string, 8);
   ("URGENT"%string, 16)].

End BitField.

(* ================================================================== *)
(** * Facts about identifiers and maps *)
(* ================================================================== *)

Unset Implicit Arguments.

Lemma jsid_eqb_eq (a b : jsid) : jsid_eqb a b = true <-> a = b.
Proof.
  destruct a, b; simpl; split; intro H; try discriminate; try reflexivity.
  - apply String.eqb_eq in H. now subst.
  - inversion H. apply String.eqb_refl.
Qed.

Lemma jsid_eqb_refl (a : jsid) : jsid_eqb a a = true.
Proof. now apply jsid_eqb_eq. Qed.

Lemma jsid_eqb_neq (a b : jsid) : jsid_eqb a b = false <-> a <> b.
Proof.
  split.
  - intros H E. apply jsid_eqb_eq in E. congruence.
  - intro N. destruct (jsid_eqb a b) eqn:E; [|reflexivity].
    apply jsid_eqb_eq in E. contradiction.
Qed.

Lemma jsid_eqb_sym (a b : jsid) : jsid_eqb a b = jsid_eqb b a.
Proof.
  destruct (jsid_eqb b a) eqn:E.
  - apply jsid_eqb_eq in E. subst. apply jsid_eqb_refl.
  - apply jsid_eqb_neq in E. apply jsid_eqb_neq. congruence.
Qed.

Lemma mem_In (k : jsid) (l : list jsid) : mem k l = true <-> In k l.
Proof.
  unfold mem. rewrite existsb_exists. split.
  - intros [x [Hx E]]. apply jsid_eqb_eq in E. now subst.
  - intro H. exists k. split; [assumption | apply jsid_eqb_refl].
Qed.

Lemma mem_not_In (k : jsid) (l : list jsid) : mem k l = false <-> ~ In k l.
Proof.
  rewrite <- mem_In. destruct (mem k l); split; intro H; congruence.
Qed.

Lemma distinct_NoDup (l : list jsid) : distinct l = true <-> NoDup l.
Proof.
  induction l as [|k rest IH]; simpl.
  - split; [constructor | reflexivity].
  - rewrite andb_true_iff, negb_true_iff, mem_not_In, IH. split.
    + intros [H1 H2]. now constructor.
    + intro H. inversion H. now split.
Qed.

Section MapFacts.

Variable V : Type.
Implicit Types (m : JsMap V) (k : jsid) (v : V).

Lemma map_get_In m k v : map_get m k = Some v -> In (k, v) m.
Proof.
  induction m as [|[k' v'] rest IH]; simpl; [discriminate|].
  destruct (jsid_eqb k k') eqn:E.
  - intro H. inversion H. subst. apply jsid_eqb_eq in E. subst. now left.
  - intro H. right. auto.
Qed.

Lemma map_get_None m k : map_get m k = None <-> ~ In k (map_keys m).
Proof.
  induction m as [|[k' v'] rest IH]; simpl.
  - split; auto.
  - destruct (jsid_eqb k k') eqn:E.
    + apply jsid_eqb_eq in E. subst. split; [discriminate|]. intro H.
      exfalso. apply H. now left.
    + apply jsid_eqb_neq in E. rewrite IH. split.
      * intros H [H1|H1]; [congruence | contradiction].
      * intros H H1. apply H. now right.
Qed.

Lemma map_get_Some_key m k v : map_get m k = Some v -> In k (map_keys m).
Proof.
  intro H. apply map_get_In in H. unfold map_keys.
  change k with (fst (k, v)). now apply in_map.
Qed.

Lemma In_map_get m k v :
  NoDup (map_keys m) -> In (k, v) m -> map_get m k = Some v.
Proof.
  induction m as [|[k' v'] rest IH]; simpl; [contradiction|].
  intros ND [H|H].
  - inversion H. subst. now rewrite jsid_eqb_refl.
  - inversion ND as [|? ? Hnot ND']. subst.
    destruct (jsid_eqb k k') eqn:E.
    + apply jsid_eqb_eq in E. subst. exfalso. apply Hnot.
      change k' with (fst (k', v)). now apply in_map.
    + auto.
Qed.

Lemma map_get_set_same m k v : map_get (map_set k v m) k = Some v.
Proof.
  induction m as [|[k' v'] rest IH]; simpl.
  - now rewrite jsid_eqb_refl.
  - destruct (jsid_eqb k k') eqn:E; simpl.
    + now rewrite jsid_eqb_refl.
    + now rewrite E.
Qed.

Lemma map_get_set_other m k k' v :
  k <> k' -> map_get (map_set k v m) k' = map_get m k'.
Proof.
  intro N. induction m as [|[k0 v0] rest IH]; simpl.
  - assert (jsid_eqb k' k = false) as -> by (apply jsid_eqb_neq; congruence).
    reflexivity.
  - destruct (jsid_eqb k k0) eqn:E; simpl.
    + apply jsid_eqb_eq in E. subst k0.
      assert (jsid_eqb k' k = false) as -> by (apply jsid_eqb_neq; congruence).
      reflexivity.
    + now rewrite IH.
Qed.

Lemma map_set_fresh m k v : ~ In k (map_keys m) -> map_set k v m = m ++ [(k, v)].
Proof.
  induction m as [|[k' v'] rest IH]; simpl; intro H; [reflexivity|].
  destruct (jsid_eqb k k') eqn:E.
  - apply jsid_eqb_eq in E. subst. exfalso. apply H. now left.
  - f_equal. apply IH. intro H1. apply H. now right.
Qed.

Lemma map_set_same_value m k v : map_get m k = Some v -> map_set k v m = m.
Proof.
  induction m as [|[k' v'] rest IH]; simpl; [discriminate|].
  destruct (jsid_eqb k k') eqn:E.
  - intro H. inversion H. apply jsid_eqb_eq in E. now subst.
  - intro H. f_equal. auto.
Qed.

Lemma map_set_twice m k v : map_set k v (map_set k v m) = map_set k v m.
Proof. apply map_set_same_value, map_get_set_same. Qed.

Lemma map_keys_set m k v :
  forall x, In x (map_keys (map_set k v m)) <-> x = k \/ In x (map_keys m).
Proof.
  induction m as [|[k' v'] rest IH]; simpl; intro x.
  - split; [intros [H|[]]; now left | intros [H|[]]; now left].
  - destruct (jsid_eqb k k') eqn:E; simpl.
    + apply jsid_eqb_eq in E. subst k'. split.
      * intros [H|H]; [left | right; right]; now auto.
      * intros [H|[H|H]]; [left | left | right]; now auto.
    + rewrite IH. split.
      * intros [H|[H|H]]; [right; left | left | right; right]; now auto.
      * intros [H|[H|H]]; [right; left | left | right; right]; now auto.
Qed.

Lemma map_keys_set_NoDup m k v :
  NoDup (map_keys m) -> NoDup (map_keys (map_set k v m)).
Proof.
  induction m as [|[k' v'] rest IH]; simpl; intro ND.
  - constructor; [intros [] | constructor].
  - inversion ND as [|? ? Hnot ND']. subst.
    destruct (jsid_eqb k k') eqn:E; simpl.
    + apply jsid_eqb_eq in E. subst. now constructor.
    + constructor; [|now apply IH].
      intro H. apply map_keys_set in H. destruct H as [H|H].
      * subst. now rewrite jsid_eqb_refl in E.
      * contradiction.
Qed.

(** On a map, [delete] drops every entry of the key. *)
Lemma map_delete_filter m k :
  NoDup (map_keys m) ->
  map_delete k m = filter (fun e => negb (jsid_eqb (fst e) k)) m.
Proof.
  induction m as [|[k' v'] rest IH]; simpl; intro ND; [reflexivity|].
  inversion ND as [|? ? Hnot ND']. subst.
  rewrite (jsid_eqb_sym k' k).
  destruct (jsid_eqb k k') eqn:E; simpl.
  - apply jsid_eqb_eq in E. subst k'.
    clear IH ND ND'. induction rest as [|[k0 v0] rest IH]; simpl; [reflexivity|].
    simpl in Hnot.
    assert (jsid_eqb k0 k = false) as ->.
    { apply jsid_eqb_neq. intro. subst. apply Hnot. now left. }
    simpl. f_equal. apply IH. intro H. apply Hnot. now right.
  - f_equal. now apply IH.
Qed.

Lemma map_get_delete_other m k k' :
  k <> k' -> map_get (map_delete k m) k' = map_get m k'.
Proof.
  intro N. induction m as [|[k0 v0] rest IH]; simpl; [reflexivity|].
  destruct (jsid_eqb k k0) eqn:E; simpl.
  - apply jsid_eqb_eq in E. subst k0.
    assert (jsid_eqb k' k = false) as -> by (apply jsid_eqb_neq; congruence).
    reflexivity.
  - now rewrite IH.
Qed.

Lemma map_delete_absent m k : ~ In k (map_keys m) -> map_delete k m = m.
Proof.
  induction m as [|[k' v'] rest IH]; simpl; intro H; [reflexivity|].
  destruct (jsid_eqb k k') eqn:E.
  - apply jsid_eqb_eq in E. subst. exfalso. apply H. now left.
  - f_equal. apply IH. intro H1. apply H. now right.
Qed.

Lemma filter_keys_NoDup (p : jsid * V -> bool) m :
  NoDup (map_keys m) -> NoDup (map_keys (filter p m)).
Proof.
  induction m as [|[k' v'] rest IH]; simpl; intro ND; [constructor|].
  inversion ND as [|? ? Hnot ND']. subst.
  destruct (p (k', v')); simpl; [|now apply IH].
  constructor; [|now apply IH].
  intro H. apply Hnot. unfold map_keys in *. apply in_map_iff in H.
  destruct H as [x [Hx Hin]]. apply filter_In in Hin. destruct Hin as [Hin _].
  rewrite <- Hx. now apply in_map.
Qed.

Lemma mappify_acc (l acc : JsMap V) :
  NoDup (map_keys (acc ++ l)) ->
  fold_left (fun map x => map_set (fst x) (snd x) map) l acc = acc ++ l.
Proof.
  revert acc. induction l as [|[k v] rest IH]; intros acc ND; simpl.
  - now rewrite app_nil_r.
  - assert (~ In k (map_keys acc)) as Hfresh.
    { unfold map_keys in *. rewrite map_app in ND. simpl in ND.
      apply NoDup_remove_2 in ND. intro H. apply ND. apply in_or_app. now left. }
    simpl. rewrite (map_set_fresh acc k v Hfresh). rewrite IH.
    + now rewrite <- app_assoc.
    + now rewrite <- app_assoc.
Qed.

(** The snapshot [mappify(store.entries())] is a copy of the store. *)
Lemma mappify_entries m :
  NoDup (map_keys m) -> GuildEmojisUpdate.mappify (map_entries m) = m.
Proof.
  intro ND. unfold GuildEmojisUpdate.mappify, map_entries.
  now rewrite mappify_acc.
Qed.

End MapFacts.

(* ================================================================== *)
(** * The emoji list-sync: what the two loops compute *)
(* ================================================================== *)

Module EmojiSync.

Import GuildEmojisUpdate.

Section Loops.

Variable Fields : Type.
Variable equals : Emoji Fields -> RawEmoji Fields -> bool.

Local Notation "'Loop'" := (GuildEmojisUpdate.Loop Fields).
Local Notation "'sync'" := (sync_emoji equals).

Lemma sync_emitted (st : Loop) (a : RawEmoji Fields) :
  emitted (sync st a) = emitted st ++ classify equals (store st) a.
Proof.
  unfold sync_emoji, classify.
  destruct (map_get (store st) (raw_id a)) as [c|]; simpl.
  - destruct (equals c a); simpl; [now rewrite app_nil_r | reflexivity].
  - reflexivity.
Qed.

Lemma sync_store_other (st : Loop) (a : RawEmoji Fields) (k : jsid) :
  k <> raw_id a -> map_get (store (sync st a)) k = map_get (store st) k.
Proof.
  intro N. unfold sync_emoji.
  destruct (map_get (store st) (raw_id a)) as [c|]; simpl.
  - destruct (equals c a); simpl; [reflexivity|].
    apply map_get_set_other. congruence.
  - apply map_get_set_other. congruence.
Qed.

Lemma sync_store_keys (st : Loop) (a : RawEmoji Fields) (k : jsid) :
  In k (map_keys (store (sync st a))) <->
  k = raw_id a \/ In k (map_keys (store st)).
Proof.
  unfold sync_emoji.
  destruct (map_get (store st) (raw_id a)) as [c|] eqn:G; simpl.
  - apply map_get_Some_key in G.
    destruct (equals c a); simpl.
    + split; [now right | intros [->|H]; assumption].
    + apply map_keys_set.
  - apply map_keys_set.
Qed.

Lemma sync_store_NoDup (st : Loop) (a : RawEmoji Fields) :
  NoDup (map_keys (store st)) -> NoDup (map_keys (store (sync st a))).
Proof.
  intro ND. unfold sync_emoji.
  destruct (map_get (store st) (raw_id a)) as [c|]; simpl.
  - destruct (equals c a); simpl; [assumption | now apply map_keys_set_NoDup].
  - now apply map_keys_set_NoDup.
Qed.

(** Whatever branch is taken, [deletions] loses the entry's id: in the
    create branch the id is not cached, so it was not in the snapshot. *)
Lemma sync_deletions (st : Loop) (a : RawEmoji Fields) :
  incl (map_keys (deletions st)) (map_keys (store st)) ->
  deletions (sync st a) = map_delete (raw_id a) (deletions st).
Proof.
  intro Hsub. unfold sync_emoji.
  destruct (map_get (store st) (raw_id a)) as [c|] eqn:G; simpl.
  - destruct (equals c a); reflexivity.
  - symmetry. apply map_delete_absent. intro H. apply Hsub in H.
    apply map_get_None in G. contradiction.
Qed.

Lemma classify_agree (S1 S2 : JsMap (Emoji Fields)) (l : list (RawEmoji Fields)) :
  (forall k, In k (payload_ids l) -> map_get S1 k = map_get S2 k) ->
  flat_map (classify equals S1) l = flat_map (classify equals S2) l.
Proof.
  induction l as [|a rest IH]; simpl; intro H; [reflexivity|].
  rewrite IH by (intros k Hk; apply H; now right).
  unfold classify at 1 3. rewrite (H (raw_id a)) by now left. reflexivity.
Qed.

(** With distinct ids, every entry is judged against the cache as it was
    before the loop. *)
Lemma sync_loop_emitted (A : list (RawEmoji Fields)) (st : Loop) :
  NoDup (payload_ids A) ->
  emitted (fold_left sync A st) = emitted st ++ flat_map (classify equals (store st)) A.
Proof.
  revert st. induction A as [|a rest IH]; intros st ND; simpl.
  - now rewrite app_nil_r.
  - inversion ND as [|? ? Hnot ND']. subst.
    rewrite IH by assumption. rewrite sync_emitted, <- app_assoc. f_equal. f_equal.
    apply classify_agree. intros k Hk. apply sync_store_other.
    intro E. subst. contradiction.
Qed.

Lemma sync_loop_keys (A : list (RawEmoji Fields)) (st : Loop) (k : jsid) :
  In k (map_keys (store (fold_left sync A st))) <->
  In k (payload_ids A) \/ In k (map_keys (store st)).
Proof.
  revert st. induction A as [|a rest IH]; intro st; simpl.
  - split; [now right | intros [[]|H]; assumption].
  - rewrite IH, sync_store_keys. split.
    + intros [H|[H|H]]; [left; right | left; left | right]; now auto.
    + intros [[H|H]|H]; [right; left | left | right; right]; now auto.
Qed.

Lemma sync_loop_NoDup (A : list (RawEmoji Fields)) (st : Loop) :
  NoDup (map_keys (store st)) -> NoDup (map_keys (store (fold_left sync A st))).
Proof.
  revert st. induction A as [|a rest IH]; intros st ND; simpl; [assumption|].
  apply IH. now apply sync_store_NoDup.
Qed.

Lemma filter_all {X : Type} (l : list X) : filter (fun _ => true) l = l.
Proof. induction l as [|x rest IH]; simpl; [reflexivity | now rewrite IH]. Qed.

Lemma filter_twice {X : Type} (p q : X -> bool) (l : list X) :
  filter p (filter q l) = filter (fun x => q x && p x) l.
Proof.
  induction l as [|x rest IH]; simpl; [reflexivity|].
  destruct (q x); simpl; [destruct (p x)|]; now rewrite IH.
Qed.

(** After the first loop, [deletions] is the snapshot without the ids
    the payload lists, whatever their order and multiplicity. *)
Lemma sync_loop_deletions (A : list (RawEmoji Fields)) (st : Loop) :
  NoDup (map_keys (deletions st)) ->
  incl (map_keys (deletions st)) (map_keys (store st)) ->
  deletions (fold_left sync A st) = unlisted A (deletions st).
Proof.
  revert st. induction A as [|a rest IH]; intros st ND Hsub; simpl.
  - unfold unlisted. simpl. symmetry. apply filter_all.
  - assert (deletions (sync st a)
            = filter (fun e => negb (jsid_eqb (fst e) (raw_id a))) (deletions st)) as Hd.
    { rewrite sync_deletions by assumption. now apply map_delete_filter. }
    rewrite IH.
    + rewrite Hd. unfold unlisted. rewrite filter_twice. apply filter_ext.
      intros [k e]. simpl. rewrite (jsid_eqb_sym k (raw_id a)).
      now rewrite negb_orb.
    + rewrite Hd. now apply filter_keys_NoDup.
    + rewrite Hd. intros k Hk. apply sync_store_keys. right. apply Hsub.
      unfold map_keys in *. apply in_map_iff in Hk. destruct Hk as [x [Hx Hin]].
      apply filter_In in Hin. destruct Hin as [Hin _]. rewrite <- Hx.
      now apply in_map.
Qed.

Local Notation "'drop'" := (@drop_emoji Fields).

Lemma drop_loop_emitted (ds : list (Emoji Fields)) (st : Loop) :
  emitted (fold_left drop ds st) = emitted st ++ map (@Deleted Fields) ds.
Proof.
  revert st. induction ds as [|d rest IH]; intro st; simpl.
  - now rewrite app_nil_r.
  - rewrite IH. simpl. now rewrite <- app_assoc.
Qed.

Lemma drop_loop_store (ds : list (Emoji Fields)) (st : Loop) :
  store (fold_left drop ds st)
  = fold_left (fun s d => map_delete (emoji_id d) s) ds (store st).
Proof.
  revert st. induction ds as [|d rest IH]; intro st; simpl; [reflexivity|].
  now rewrite IH.
Qed.

Lemma delete_all_keys (ds : list (Emoji Fields)) (s : JsMap (Emoji Fields)) :
  NoDup (map_keys s) ->
  NoDup (map_keys (fold_left (fun s d => map_delete (emoji_id d) s) ds s)) /\
  forall k, In k (map_keys (fold_left (fun s d => map_delete (emoji_id d) s) ds s))
            <-> In k (map_keys s) /\ ~ In k (map (@emoji_id Fields) ds).
Proof.
  revert s. induction ds as [|d rest IH]; intros s ND; simpl.
  - split; [assumption|]. intro k. split; [intro H; split; [assumption | tauto] | tauto].
  - assert (NoDup (map_keys (map_delete (emoji_id d) s))) as ND'.
    { rewrite map_delete_filter by assumption. now apply filter_keys_NoDup. }
    destruct (IH _ ND') as [IH1 IH2]. split; [assumption|].
    intro k. rewrite IH2. rewrite map_delete_filter by assumption.
    unfold map_keys. rewrite !in_map_iff. split.
    + intros [[x [Hx Hin]] Hn]. apply filter_In in Hin. destruct Hin as [Hin Hp].
      split; [exists x; now split|].
      intros [E|H]; [|contradiction].
      rewrite Hx in Hp. rewrite E, jsid_eqb_refl in Hp. discriminate.
    + intros [[x [Hx Hin]] Hn]. split.
      * exists x. split; [assumption|]. apply filter_In. split; [assumption|].
        rewrite Hx. apply negb_true_iff, jsid_eqb_neq. intro E. apply Hn. left. congruence.
      * intro H. apply Hn. now right.
Qed.

(** In a well-kept store the values of a sub-map carry its keys. *)
Lemma values_ids (B : JsMap (Emoji Fields)) (p : jsid * Emoji Fields -> bool) :
  (forall k e, In (k, e) B -> emoji_id e = k) ->
  map (@emoji_id Fields) (map_values (filter p B)) = map_keys (filter p B).
Proof.
  intro Hid. unfold map_values, map_keys. rewrite map_map.
  apply map_ext_in. intros [k e] Hin. simpl.
  apply filter_In in Hin. destruct Hin as [Hin _]. now apply Hid.
Qed.

Lemma unlisted_keys (A : list (RawEmoji Fields)) (B : JsMap (Emoji Fields)) (k : jsid) :
  In k (map_keys (unlisted A B)) <-> In k (map_keys B) /\ ~ In k (payload_ids A).
Proof.
  unfold unlisted, map_keys. rewrite !in_map_iff. split.
  - intros [x [Hx Hin]]. apply filter_In in Hin. destruct Hin as [Hin Hp].
    split; [exists x; now split|].
    apply negb_true_iff, mem_not_In in Hp. now rewrite Hx in Hp.
  - intros [[x [Hx Hin]] Hn]. exists x. split; [assumption|].
    apply filter_In. split; [assumption|].
    apply negb_true_iff, mem_not_In. now rewrite Hx.
Qed.


Lemma sync_loop_store_other (A : list (RawEmoji Fields)) (st : Loop) (k : jsid) :
  ~ In k (payload_ids A) ->
  map_get (store (fold_left sync A st)) k = map_get (store st) k.
Proof.
  revert st. induction A as [|a rest IH]; intros st Hn; simpl; [reflexivity|].
  rewrite IH by (intro H; apply Hn; now right).
  apply sync_store_other. intro E. apply Hn. now left.
Qed.

(** An uncached entry ends up in the store, built from its payload. *)
Lemma sync_loop_get_created (A : list (RawEmoji Fields)) (st : Loop)
    (raw : RawEmoji Fields) :
  NoDup (payload_ids A) -> In raw A ->
  map_get (store st) (raw_id raw) = None ->
  map_get (store (fold_left sync A st)) (raw_id raw) = Some (setup raw).
Proof.
  revert st. induction A as [|a rest IH]; intros st ND Hin Hget; simpl; [contradiction|].
  inversion ND as [|? ? Hnot ND']. subst. destruct Hin as [->|Hin].
  - rewrite sync_loop_store_other by assumption.
    unfold sync_emoji. rewrite Hget. simpl. apply map_get_set_same.
  - apply IH; try assumption. rewrite sync_store_other; [assumption|].
    intro E. apply Hnot. unfold payload_ids. rewrite <- E. now apply in_map.
Qed.

(** The first loop emits updates and creates only. *)
Lemma sync_loop_kinds (A : list (RawEmoji Fields)) (st : Loop) :
  forallb (@is_sync Fields) (emitted st) = true ->
  forallb (@is_sync Fields) (emitted (fold_left sync A st)) = true.
Proof.
  revert st. induction A as [|a rest IH]; intros st H; simpl; [assumption|].
  apply IH. rewrite sync_emitted, forallb_app, H. simpl.
  unfold classify. destruct (map_get (store st) (raw_id a)) as [c|]; simpl;
    [destruct (equals c a)|]; reflexivity.
Qed.

(** When every entry is cached and equal, the first loop changes nothing
    but [deletions]. *)
Lemma sync_loop_silent (A : list (RawEmoji Fields)) (st : Loop) :
  (forall raw, In raw A ->
     exists c, map_get (store st) (raw_id raw) = Some c /\ equals c raw = true) ->
  store (fold_left sync A st) = store st /\
  emitted (fold_left sync A st) = emitted st.
Proof.
  revert st. induction A as [|a rest IH]; intros st H; simpl; [now split|].
  destruct (H a (or_introl eq_refl)) as [c [Hc He]].
  assert (store (sync st a) = store st /\ emitted (sync st a) = emitted st) as [Hs Hm].
  { unfold sync_emoji. rewrite Hc, He. simpl. now split. }
  destruct (IH (sync st a)) as [IH1 IH2].
  - intros raw Hin. rewrite Hs. apply H. now right.
  - rewrite IH1, IH2. now split.
Qed.

Lemma store_ok_spec (B : JsMap (Emoji Fields)) :
  store_ok B = true ->
  NoDup (map_keys B) /\ forall k e, In (k, e) B -> emoji_id e = k.
Proof.
  unfold store_ok. rewrite andb_true_iff, distinct_NoDup, forallb_forall.
  intros [ND H]. split; [assumption|]. intros k e Hin.
  apply H in Hin. simpl in Hin. now apply jsid_eqb_eq.
Qed.

Lemma emojis_of_Some (client : Client Fields) (gid : jsid) (B : JsMap (Emoji Fields)) :
  emojis_of client gid = Some B ->
  exists guild, map_get (guilds client) gid = Some guild /\ guild_emojis guild = Some B.
Proof.
  unfold emojis_of. destruct (map_get (guilds client) gid) as [g|]; [|discriminate].
  intro H. now exists g.
Qed.

(** [handle] on a cached guild, with the snapshot taken: the first loop,
    then one delete per entry left in [deletions]. *)
Lemma handle_of_map (client : Client Fields) (data : Data Fields)
    (B : JsMap (Emoji Fields)) (A : list (RawEmoji Fields)) :
  emojis_of client (data_guild_id data) = Some B ->
  NoDup (map_keys B) ->
  data_emojis data = Some A ->
  handle equals client data =
  Returned
    (with_emojis client (data_guild_id data)
       (fold_left (fun s d => map_delete (emoji_id d) s) (map_values (unlisted A B))
          (store (fold_left sync A {| store := B; deletions := B; emitted := [] |}))),
     emitted (fold_left sync A {| store := B; deletions := B; emitted := [] |})
       ++ map (@Deleted Fields) (map_values (unlisted A B))).
Proof.
  intros HB ND HA. destruct (emojis_of_Some _ _ _ HB) as [g [Hg Hge]].
  unfold handle. rewrite Hg, Hge, HA. rewrite mappify_entries by assumption.
  rewrite drop_loop_emitted, drop_loop_store.
  rewrite sync_loop_deletions; simpl; [reflexivity | assumption | apply incl_refl].
Qed.

Lemma handle_cached (client : Client Fields) (data : Data Fields)
    (B : JsMap (Emoji Fields)) (A : list (RawEmoji Fields)) :
  emojis_of client (data_guild_id data) = Some B ->
  store_ok B = true ->
  data_emojis data = Some A ->
  handle equals client data =
  Returned
    (with_emojis client (data_guild_id data)
       (fold_left (fun s d => map_delete (emoji_id d) s) (map_values (unlisted A B))
          (store (fold_left sync A {| store := B; deletions := B; emitted := [] |}))),
     emitted (fold_left sync A {| store := B; deletions := B; emitted := [] |})
       ++ map (@Deleted Fields) (map_values (unlisted A B))).
Proof.
  intros HB Hok HA. destruct (store_ok_spec _ Hok) as [ND _].
  now apply handle_of_map.
Qed.

(** Whatever the list, the first loop emits entry by entry: nothing, or
    one 'created' or one 'updated' for the entry at hand. *)
Lemma sync_loop_entries (A : list (RawEmoji Fields)) (st : Loop) :
  exists outs,
    emitted (fold_left sync A st) = emitted st ++ List.concat outs /\
    Forall2 (fun raw out =>
               out = [] \/ out = [Created (setup raw)] \/
               exists cached, out = [Updated cached (setup raw)]) A outs.
Proof.
  revert st. induction A as [|a rest IH]; intro st; simpl.
  - exists []. split; [now rewrite app_nil_r | constructor].
  - destruct (IH (sync st a)) as [outs [Hem Hall]].
    exists (classify equals (store st) a :: outs). split.
    + rewrite Hem, sync_emitted, <- app_assoc. reflexivity.
    + constructor; [|exact Hall].
      unfold classify. destruct (map_get (store st) (raw_id a)) as [c|].
      * destruct (equals c a); [now left | right; right; now exists c].
      * right. now left.
Qed.

(** ** Reading the ids off a trace *)

Lemma deleted_ids_sync (tr : list (Notification Fields)) :
  forallb (@is_sync Fields) tr = true -> deleted_ids tr = [].
Proof.
  induction tr as [|n rest IH]; simpl; [reflexivity|].
  rewrite andb_true_iff. intros [H1 H2]. rewrite (IH H2).
  destruct n; simpl in *; try discriminate; reflexivity.
Qed.

Lemma diagnostic_sync (tr : list (Notification Fields)) :
  forallb (@is_sync Fields) tr = true -> existsb (@is_diagnostic Fields) tr = false.
Proof.
  induction tr as [|n rest IH]; simpl; [reflexivity|].
  rewrite andb_true_iff. intros [H1 H2]. rewrite (IH H2).
  destruct n; simpl in *; try discriminate; reflexivity.
Qed.

Lemma ids_of_deletes (ds : list (Emoji Fields)) :
  deleted_ids (map (@Deleted Fields) ds) = map (@emoji_id Fields) ds /\
  updated_ids (map (@Deleted Fields) ds) = [] /\
  created_ids (map (@Deleted Fields) ds) = [] /\
  existsb (@is_diagnostic Fields) (map (@Deleted Fields) ds) = false.
Proof.
  induction ds as [|d rest [IH1 [IH2 [IH3 IH4]]]]; simpl; [now repeat split|].
  rewrite IH1, IH2, IH3, IH4. now repeat split.
Qed.

Lemma updated_ids_classify (B : JsMap (Emoji Fields)) (A : list (RawEmoji Fields))
    (id : jsid) :
  (forall k e, In (k, e) B -> emoji_id e = k) ->
  In id (updated_ids (flat_map (classify equals B) A)) <->
  exists raw c, In raw A /\ raw_id raw = id /\ map_get B id = Some c /\ equals c raw = false.
Proof.
  intro Hid. induction A as [|a rest IH]; simpl.
  - split; [contradiction | intros [raw [c [[] _]]]].
  - unfold updated_ids in *. rewrite flat_map_app, in_app_iff, IH. clear IH. split.
    + intros [H|[raw [c [Hin H]]]].
      * unfold classify in H. destruct (map_get B (raw_id a)) as [c|] eqn:G;
          [destruct (equals c a) eqn:E|]; simpl in H; try tauto.
        destruct H as [H|[]]. pose proof (Hid _ _ (map_get_In _ _ _ _ G)) as Hk.
        exists a, c. rewrite <- H, Hk. repeat split; auto.
      * exists raw, c. split; [now right | assumption].
    + intros [raw [c [[->|Hin] [H1 [H2 H3]]]]].
      * left. unfold classify. rewrite H1, H2, H3. simpl. left.
        exact (Hid _ _ (map_get_In _ _ _ _ H2)).
      * right. exists raw, c. now repeat split.
Qed.

Lemma created_ids_classify (B : JsMap (Emoji Fields)) (A : list (RawEmoji Fields))
    (id : jsid) :
  In id (created_ids (flat_map (classify equals B) A)) <->
  In id (payload_ids A) /\ ~ In id (map_keys B).
Proof.
  induction A as [|a rest IH]; simpl.
  - tauto.
  - unfold created_ids in *. rewrite flat_map_app, in_app_iff, IH. clear IH. split.
    + intros [H|[H1 H2]].
      * unfold classify in H. destruct (map_get B (raw_id a)) as [c|] eqn:G;
          [destruct (equals c a)|]; simpl in H; try tauto.
        destruct H as [H|[]]. subst id. split; [now left|].
        now apply map_get_None.
      * split; [now right | assumption].
    + intros [[H|H] Hn].
      * left. subst id. apply map_get_None in Hn. unfold classify. rewrite Hn.
        simpl. now left.
      * right. now split.
Qed.

Lemma updated_ids_distinct (B : JsMap (Emoji Fields)) (A : list (RawEmoji Fields)) :
  (forall k e, In (k, e) B -> emoji_id e = k) ->
  NoDup (payload_ids A) ->
  NoDup (updated_ids (flat_map (classify equals B) A)).
Proof.
  intros Hid. induction A as [|a rest IH]; simpl; intro ND; [constructor|].
  inversion ND as [|? ? Hnot ND']. subst.
  unfold updated_ids in *. rewrite flat_map_app. apply NoDup_app; [| now apply IH |].
  - unfold classify. destruct (map_get B (raw_id a)) as [c|];
      [destruct (equals c a)|]; simpl; repeat constructor; auto.
  - intros x Hx Hx'. apply (updated_ids_classify B rest x Hid) in Hx'.
    destruct Hx' as [raw [c [Hin [Hr [Hg _]]]]].
    unfold classify in Hx. destruct (map_get B (raw_id a)) as [c'|] eqn:G;
      [destruct (equals c' a)|]; simpl in Hx; try tauto.
    destruct Hx as [Hx|[]]. pose proof (Hid _ _ (map_get_In _ _ _ _ G)) as Hk.
    apply Hnot. unfold payload_ids. rewrite <- Hk, Hx, <- Hr. now apply in_map.
Qed.

Lemma created_ids_distinct (B : JsMap (Emoji Fields)) (A : list (RawEmoji Fields)) :
  NoDup (payload_ids A) ->
  NoDup (created_ids (flat_map (classify equals B) A)).
Proof.
  induction A as [|a rest IH]; simpl; intro ND; [constructor|].
  inversion ND as [|? ? Hnot ND']. subst.
  unfold created_ids in *. rewrite flat_map_app. apply NoDup_app; [| now apply IH |].
  - unfold classify. destruct (map_get B (raw_id a)) as [c|];
      [destruct (equals c a)|]; simpl; repeat constructor; auto.
  - intros x Hx Hx'. apply (created_ids_classify B rest x) in Hx'.
    destruct Hx' as [Hin _].
    unfold classify in Hx. destruct (map_get B (raw_id a)) as [c'|] eqn:G;
      [destruct (equals c' a)|]; simpl in Hx; try tauto.
    destruct Hx as [Hx|[]]. subst x. contradiction.
Qed.

(** ** Properties of the list-sync *)

(** C1, as the code has it. For a cached emoji store [B] and an
    incoming list [A], [handle] returns; its 'deleted' notifications are
    exactly the ids of [B] that [A] does not list, each once, whatever
    the order and multiplicity of the entries of [A], so an id in both
    never gets one; and it emits nothing but 'updated', 'created' and
    'deleted'. When [A] lists each id once, the 'updated' notifications
    are exactly the ids of both whose cached and incoming
    representations are not equal, the 'created' ones exactly the ids of
    [A] not in [B], and no id gets two notifications. *)
Theorem partition_exact (client : Client Fields) (data : Data Fields)
    (B : JsMap (Emoji Fields)) (A : list (RawEmoji Fields)) :
  emojis_of client (data_guild_id data) = Some B ->
  store_ok B = true ->
  data_emojis data = Some A ->
  exists client' tr,
    handle equals client data = Returned (client', tr) /\
    (forall id, In id (deleted_ids tr) <->
                In id (map_keys B) /\ ~ In id (payload_ids A)) /\
    NoDup (deleted_ids tr) /\
    (forall id, In id (map_keys B) -> In id (payload_ids A) ->
                ~ In id (deleted_ids tr)) /\
    existsb (@is_diagnostic Fields) tr = false /\
    (distinct (payload_ids A) = true ->
       (forall id, In id (updated_ids tr) <->
                   exists raw cached, In raw A /\ raw_id raw = id /\
                     map_get B id = Some cached /\ equals cached raw = false) /\
       (forall id, In id (created_ids tr) <->
                   In id (payload_ids A) /\ ~ In id (map_keys B)) /\
       NoDup (updated_ids tr ++ created_ids tr ++ deleted_ids tr)).
Proof.
  intros HB Hok HA.
  destruct (store_ok_spec _ Hok) as [ND Hid].
  eexists. eexists. split; [apply (handle_cached _ _ _ _ HB Hok HA)|].
  set (st1 := fold_left sync A {| store := B; deletions := B; emitted := [] |}).
  assert (forallb (@is_sync Fields) (emitted st1) = true) as Hkinds
    by (apply sync_loop_kinds; reflexivity).
  destruct (ids_of_deletes (map_values (unlisted A B))) as [Hd [Hu [Hc Hg]]].
  assert (deleted_ids (emitted st1 ++ map (@Deleted Fields) (map_values (unlisted A B)))
          = map_keys (unlisted A B)) as Hdel.
  { unfold deleted_ids in *. rewrite flat_map_app.
    fold (deleted_ids (emitted st1)). rewrite (deleted_ids_sync _ Hkinds). simpl.
    rewrite Hd. now apply values_ids. }
  rewrite Hdel.
  assert (NoDup (map_keys (unlisted A B))) as NDdel by now apply filter_keys_NoDup.
  split; [intro id; apply unlisted_keys|].
  split; [assumption|].
  split; [intros id H1 H2 H3; apply unlisted_keys in H3; tauto|].
  split; [rewrite existsb_app, Hg, (diagnostic_sync _ Hkinds); reflexivity|].
  intro Hdist. apply distinct_NoDup in Hdist.
  assert (emitted st1 = flat_map (classify equals B) A) as Hem
    by (unfold st1; rewrite sync_loop_emitted by assumption; reflexivity).
  assert (updated_ids (emitted st1 ++ map (@Deleted Fields) (map_values (unlisted A B)))
          = updated_ids (flat_map (classify equals B) A)) as Hupd.
  { unfold updated_ids in *. rewrite flat_map_app, Hu, app_nil_r. now rewrite Hem. }
  assert (created_ids (emitted st1 ++ map (@Deleted Fields) (map_values (unlisted A B)))
          = created_ids (flat_map (classify equals B) A)) as Hcre.
  { unfold created_ids in *. rewrite flat_map_app, Hc, app_nil_r. now rewrite Hem. }
  rewrite Hupd, Hcre.
  split; [intro id; now apply updated_ids_classify|].
  split; [intro id; apply created_ids_classify|].
  apply NoDup_app; [now apply updated_ids_distinct | |].
  - apply NoDup_app; [now apply created_ids_distinct | assumption |].
    intros x Hx Hx'. apply created_ids_classify in Hx. apply unlisted_keys in Hx'. tauto.
  - intros x Hx Hx'. apply (updated_ids_classify B A x Hid) in Hx.
    destruct Hx as [raw [c [Hin [Hr [Hget _]]]]].
    apply in_app_or in Hx'. destruct Hx' as [Hx'|Hx'].
    + apply created_ids_classify in Hx'. destruct Hx' as [_ Hn].
      apply Hn. now apply (map_get_Some_key _ _ _ _ Hget).
    + apply unlisted_keys in Hx'. destruct Hx' as [_ Hn].
      apply Hn. unfold payload_ids. rewrite <- Hr. now apply in_map.
Qed.

(** C2. Applying the same complete list a second time, on the client
    the first application left in sync (each cached emoji equal to the
    payload entry of its id), emits nothing and changes nothing. *)
Theorem second_sync_silent (client client1 : Client Fields) (data : Data Fields)
    (tr1 : list (Notification Fields)) :
  (forall B, emojis_of client (data_guild_id data) = Some B -> store_ok B = true) ->
  handle equals client data = Returned (client1, tr1) ->
  (forall S A, emojis_of client1 (data_guild_id data) = Some S ->
               data_emojis data = Some A -> in_sync equals S A = true) ->
  handle equals client1 data = Returned (client1, []).
Proof.
  intros Hok H1 Hsync.
  destruct (emojis_of client (data_guild_id data)) as [B|] eqn:HB.
  - specialize (Hok B eq_refl). destruct (store_ok_spec _ Hok) as [ND Hid].
    destruct (data_emojis data) as [A|] eqn:HA.
    + rewrite (handle_cached _ _ _ _ HB Hok HA) in H1. inversion H1 as [[Hc Ht]]. clear H1.
      set (st1 := fold_left sync A {| store := B; deletions := B; emitted := [] |}) in *.
      set (S1 := fold_left (fun s d => map_delete (emoji_id d) s)
                   (map_values (unlisted A B)) (store st1)) in *.
      assert (NoDup (map_keys (store st1))) as ND1
        by (apply sync_loop_NoDup; assumption).
      destruct (delete_all_keys (map_values (unlisted A B)) (store st1) ND1) as [NDS HkS].
      fold S1 in NDS, HkS.
      assert (forall k, In k (map_keys S1) <-> In k (payload_ids A)) as Hkeys.
      { intro k. rewrite HkS. unfold st1. rewrite sync_loop_keys. simpl.
        unfold unlisted. rewrite (values_ids _ _ Hid). fold (unlisted A B).
        rewrite unlisted_keys.
        destruct (mem k (payload_ids A)) eqn:M;
          [apply mem_In in M | apply mem_not_In in M]; tauto. }
      assert (emojis_of (with_emojis client (data_guild_id data) S1) (data_guild_id data)
              = Some S1) as HS1.
      { unfold emojis_of, with_emojis. simpl. now rewrite map_get_set_same. }
      subst client1. specialize (Hsync S1 A HS1 eq_refl).
      unfold handle, with_emojis. simpl. rewrite map_get_set_same. simpl.
      rewrite HA. rewrite mappify_entries by assumption.
      destruct (sync_loop_silent A {| store := S1; deletions := S1; emitted := [] |})
        as [Hst Hem].
      { intros raw Hin. simpl. unfold in_sync in Hsync.
        rewrite forallb_forall in Hsync. specialize (Hsync raw Hin).
        destruct (map_get S1 (raw_id raw)) as [c|] eqn:G; [now exists c|].
        exfalso. apply map_get_None in G. apply G, Hkeys.
        unfold payload_ids. now apply in_map. }
      rewrite drop_loop_emitted, drop_loop_store, Hst, Hem.
      rewrite sync_loop_deletions; simpl; [| assumption | apply incl_refl].
      assert (unlisted A S1 = []) as ->.
      { unfold unlisted. destruct (filter _ S1) as [|[k e] l] eqn:F; [reflexivity|].
        assert (In (k, e) (filter (fun e0 => negb (mem (fst e0) (payload_ids A))) S1)) as Hin
          by (rewrite F; now left).
        apply filter_In in Hin. destruct Hin as [Hin Hp]. simpl in Hp.
        apply negb_true_iff, mem_not_In in Hp. exfalso. apply Hp, Hkeys.
        unfold map_keys. change k with (fst (k, e)). now apply in_map. }
      simpl. now rewrite map_set_twice.
    + exfalso. destruct (emojis_of_Some _ _ _ HB) as [g [Hg Hge]].
      unfold handle in H1. rewrite Hg, Hge, HA in H1. discriminate.
  - assert (handle equals client data = Returned (client, [])) as H0.
    { unfold handle. unfold emojis_of in HB.
      destruct (map_get (guilds client) (data_guild_id data)) as [g|]; [|reflexivity].
      now rewrite HB. }
    rewrite H0 in H1. inversion H1. subst. assumption.
Qed.

(** C3, as the code has it. Whatever the cache, a Map [B], and
    whatever the payload list [A], the notifications of one call come in
    two groups. First those of the loop over the list, entry by entry in
    the order of the list: each entry yields nothing, or one 'created',
    or one 'updated', for itself, so creates and updates interleave.
    Then every 'deleted', in the order of the cache. When the list names
    each id once, what an entry yields is decided by the cache as it was
    before the call. *)
Theorem sync_order (client : Client Fields) (data : Data Fields)
    (B : JsMap (Emoji Fields)) (A : list (RawEmoji Fields)) :
  emojis_of client (data_guild_id data) = Some B ->
  distinct (map_keys B) = true ->
  data_emojis data = Some A ->
  exists client' outs dels,
    handle equals client data = Returned (client', List.concat outs ++ dels) /\
    Forall2 (fun raw out =>
               out = [] \/ out = [Created (setup raw)] \/
               exists cached, out = [Updated cached (setup raw)]) A outs /\
    dels = map (@Deleted Fields) (map_values (unlisted A B)) /\
    (distinct (payload_ids A) = true ->
       List.concat outs = flat_map (classify equals B) A).
Proof.
  intros HB Hmap HA. apply distinct_NoDup in Hmap.
  destruct (sync_loop_entries A {| store := B; deletions := B; emitted := [] |})
    as [outs [Hem Hall]]. simpl in Hem.
  exists (with_emojis client (data_guild_id data)
            (fold_left (fun s d => map_delete (emoji_id d) s) (map_values (unlisted A B))
               (store (fold_left sync A {| store := B; deletions := B; emitted := [] |})))),
         outs, (map (@Deleted Fields) (map_values (unlisted A B))).
  split; [rewrite <- Hem; now apply handle_of_map|].
  split; [exact Hall|].
  split; [reflexivity|].
  intro Hd. apply distinct_NoDup in Hd.
  rewrite <- Hem. now rewrite sync_loop_emitted by assumption.
Qed.

(** C6, as the code has it. [handle] does not check identifiers. An
    entry whose id is missing is looked up under the key [undefined]
    like any other; when nothing is cached under that key it goes to the
    create handler, which stores it under [undefined] and emits
    'created'. No diagnostic is emitted, and every entry of the batch is
    processed. *)
Theorem missing_id_is_created (client : Client Fields) (data : Data Fields)
    (B : JsMap (Emoji Fields)) (A : list (RawEmoji Fields)) (bad : RawEmoji Fields) :
  emojis_of client (data_guild_id data) = Some B ->
  store_ok B = true ->
  data_emojis data = Some A ->
  distinct (payload_ids A) = true ->
  In bad A ->
  raw_id bad = Undefined ->
  map_get B Undefined = None ->
  exists client' tr S',
    handle equals client data = Returned (client', tr) /\
    In (Created (setup bad)) tr /\
    emojis_of client' (data_guild_id data) = Some S' /\
    map_get S' Undefined = Some (setup bad) /\
    existsb (@is_diagnostic Fields) tr = false /\
    (forall raw n, In raw A -> In n (classify equals B raw) -> In n tr).
Proof.
  intros HB Hok HA Hd Hin Hbad Hget.
  destruct (store_ok_spec _ Hok) as [ND Hid]. apply distinct_NoDup in Hd.
  eexists. eexists. eexists. split; [apply (handle_cached _ _ _ _ HB Hok HA)|].
  set (st1 := fold_left sync A {| store := B; deletions := B; emitted := [] |}).
  assert (emitted st1 = flat_map (classify equals B) A) as Hem
    by (unfold st1; rewrite sync_loop_emitted by assumption; reflexivity).
  assert (forall raw n, In raw A -> In n (classify equals B raw) -> In n (emitted st1)) as Hall.
  { intros raw n H1 H2. rewrite Hem. apply in_flat_map. now exists raw. }
  split.
  { apply in_or_app. left. apply (Hall bad); [assumption|].
    unfold classify. rewrite Hbad, Hget. now left. }
  split.
  { unfold emojis_of, with_emojis. simpl. rewrite map_get_set_same. reflexivity. }
  split.
  { assert (map_get (store st1) Undefined = Some (setup bad)) as Hs.
    { rewrite <- Hbad. apply sync_loop_get_created; try assumption.
      simpl. now rewrite Hbad. }
    assert (forall ds : list (Emoji Fields),
              ~ In Undefined (map (@emoji_id Fields) ds) ->
              forall s : JsMap (Emoji Fields),
                map_get (fold_left (fun s d => map_delete (emoji_id d) s) ds s) Undefined
                = map_get s Undefined) as Hkeep.
    { induction ds as [|d rest IH]; intros Hn s; simpl; [reflexivity|].
      rewrite IH by (intro H; apply Hn; now right).
      apply map_get_delete_other. intro E. apply Hn. now left. }
    rewrite Hkeep; [assumption|].
    unfold unlisted. rewrite (values_ids _ _ Hid). fold (unlisted A B).
    rewrite unlisted_keys. intros [_ Hn]. apply Hn.
    unfold payload_ids. rewrite <- Hbad. now apply in_map. }
  split.
  { destruct (ids_of_deletes (map_values (unlisted A B))) as [_ [_ [_ Hg]]].
    rewrite existsb_app, Hg, diagnostic_sync; [reflexivity|].
    apply sync_loop_kinds. reflexivity. }
  intros raw n H1 H2. apply in_or_app. left. now apply (Hall raw).
Qed.

(** C7, as the code has it. When the guild is not cached, or is cached
    without an emoji store, [handle] returns at once: the client is
    unchanged and nothing is emitted, a diagnostic included. *)
Theorem uncached_guild_noop (client : Client Fields) (data : Data Fields) :
  emojis_of client (data_guild_id data) = None ->
  handle equals client data = Returned (client, []).
Proof.
  unfold emojis_of, handle. intro H.
  destruct (map_get (guilds client) (data_guild_id data)) as [g|]; [|reflexivity].
  now rewrite H.
Qed.

End Loops.

(** Cache {A, B}, list [A unchanged, C]: create C, delete B, nothing
    for A. *)
Example sync_scenario :
  handle named_equals
    (client_with [(Str "A", emoji (Str "A") "a"); (Str "B", emoji (Str "B") "b")])
    (sync_event [raw_emoji (Str "A") "a"; raw_emoji (Str "C") "c"])
  = Returned
      (client_with [(Str "A", emoji (Str "A") "a"); (Str "C", emoji (Str "C") "c")],
       [Created (emoji (Str "C") "c"); Deleted (emoji (Str "B") "b")]).
Proof. reflexivity. Qed.

(** A cached guild and a payload without its list: iterating throws. *)
Example sync_without_list :
  handle named_equals (client_with demo_cache)
         {| data_guild_id := Str "g"; data_emojis := None |}
  = Thrown "TypeError: data.emojis is not iterable".
Proof. reflexivity. Qed.

(** C1 fails as stated: when the list names an id twice, the second
    entry is compared with what the first left in the cache. The id "C",
    in the list and not in the cache, gets 'created' and then 'updated':
    two categories for one id, and an 'updated' for an id that is not in
    both. *)
Lemma repeated_id_two_notifications :
  handle named_equals (client_with [])
         (sync_event [raw_emoji (Str "C") "c"; raw_emoji (Str "C") "c2"])
  = Returned
      (client_with [(Str "C", emoji (Str "C") "c2")],
       [Created (emoji (Str "C") "c");
        Updated (emoji (Str "C") "c") (emoji (Str "C") "c2")])
  /\ created_ids [Created (emoji (Str "C") "c");
                  Updated (emoji (Str "C") "c") (emoji (Str "C") "c2")] = [Str "C"]
  /\ updated_ids [Created (emoji (Str "C") "c");
                  Updated (emoji (Str "C") "c") (emoji (Str "C") "c2")] = [Str "C"]
  /\ map_get (@nil (jsid * Emoji string)) (Str "C") = None.
Proof. repeat split. Qed.

Lemma partition_exact_witness :
  emojis_of (client_with demo_cache) (data_guild_id (sync_event demo_payload))
    = Some demo_cache /\
  store_ok demo_cache = true /\
  data_emojis (sync_event demo_payload) = Some demo_payload /\
  exists client' tr,
    handle named_equals (client_with demo_cache) (sync_event demo_payload)
      = Returned (client', tr) /\
    (forall id, In id (deleted_ids tr) <->
                In id (map_keys demo_cache) /\ ~ In id (payload_ids demo_payload)) /\
    NoDup (deleted_ids tr) /\
    (forall id, In id (map_keys demo_cache) -> In id (payload_ids demo_payload) ->
                ~ In id (deleted_ids tr)) /\
    existsb (@is_diagnostic string) tr = false /\
    (distinct (payload_ids demo_payload) = true ->
       (forall id, In id (updated_ids tr) <->
                   exists raw cached, In raw demo_payload /\ raw_id raw = id /\
                     map_get demo_cache id = Some cached /\
                     named_equals cached raw = false) /\
       (forall id, In id (created_ids tr) <->
                   In id (payload_ids demo_payload) /\ ~ In id (map_keys demo_cache)) /\
       NoDup (updated_ids tr ++ created_ids tr ++ deleted_ids tr)).
Proof.
  split; [reflexivity|]. split; [reflexivity|]. split; [reflexivity|].
  apply (partition_exact string named_equals (client_with demo_cache)
           (sync_event demo_payload) demo_cache demo_payload); reflexivity.
Defined.

Lemma second_sync_silent_witness :
  (forall B, emojis_of (client_with demo_cache) (data_guild_id (sync_event demo_payload))
             = Some B -> store_ok B = true) /\
  handle named_equals (client_with demo_cache) (sync_event demo_payload)
    = Returned (client_with demo_synced, demo_trace) /\
  (forall S A, emojis_of (client_with demo_synced) (data_guild_id (sync_event demo_payload))
               = Some S ->
               data_emojis (sync_event demo_payload) = Some A ->
               in_sync named_equals S A = true) /\
  handle named_equals (client_with demo_synced) (sync_event demo_payload)
    = Returned (client_with demo_synced, []).
Proof.
  assert (forall B, emojis_of (client_with demo_cache)
                      (data_guild_id (sync_event demo_payload)) = Some B ->
                    store_ok B = true) as H1.
  { intros B H. vm_compute in H. inversion H. reflexivity. }
  assert (forall S A, emojis_of (client_with demo_synced)
                        (data_guild_id (sync_event demo_payload)) = Some S ->
                      data_emojis (sync_event demo_payload) = Some A ->
                      in_sync named_equals S A = true) as H3.
  { intros S A HS HA. vm_compute in HS. inversion HS. simpl in HA. inversion HA.
    reflexivity. }
  split; [exact H1|]. split; [reflexivity|]. split; [exact H3|].
  apply (second_sync_silent string named_equals (client_with demo_cache)
           (client_with demo_synced) (sync_event demo_payload) demo_trace H1);
    [reflexivity | exact H3].
Defined.

(** C3 fails as stated: a create is emitted before an update when the
    new emoji comes first in the list. *)
Lemma create_before_update :
  handle named_equals
    (client_with [(Str "2", emoji (Str "2") "old")])
    (sync_event [raw_emoji (Str "1") "new"; raw_emoji (Str "2") "changed"])
  = Returned
      (client_with [(Str "2", emoji (Str "2") "changed"); (Str "1", emoji (Str "1") "new")],
       [Created (emoji (Str "1") "new");
        Updated (emoji (Str "2") "old") (emoji (Str "2") "changed")])
  /\ grouped [Created (emoji (Str "1") "new");
              Updated (emoji (Str "2") "old") (emoji (Str "2") "changed")] = false.
Proof. split; reflexivity. Qed.

Lemma sync_order_witness :
  emojis_of (client_with demo_cache) (data_guild_id (sync_event demo_payload))
    = Some demo_cache /\
  distinct (map_keys demo_cache) = true /\
  data_emojis (sync_event demo_payload) = Some demo_payload /\
  exists client' outs dels,
    handle named_equals (client_with demo_cache) (sync_event demo_payload)
      = Returned (client', List.concat outs ++ dels) /\
    Forall2 (fun raw out =>
               out = [] \/ out = [Created (setup raw)] \/
               exists cached, out = [Updated cached (setup raw)]) demo_payload outs /\
    dels = map (@Deleted string) (map_values (unlisted demo_payload demo_cache)) /\
    (distinct (payload_ids demo_payload) = true ->
     List.concat outs = flat_map (classify named_equals demo_cache) demo_payload).
Proof.
  split; [reflexivity|]. split; [reflexivity|]. split; [reflexivity|].
  apply (sync_order string named_equals (client_with demo_cache)
           (sync_event demo_payload) demo_cache demo_payload); reflexivity.
Defined.

(** C6 fails as stated: the entry without an id is not skipped and not
    reported; it is created and cached under [undefined]. *)
Lemma missing_id_not_skipped :
  handle named_equals (client_with []) (sync_event demo_malformed)
  = Returned
      (client_with [(Undefined, emoji Undefined "x"); (Str "1", emoji (Str "1") "one")],
       [Created (emoji Undefined "x"); Created (emoji (Str "1") "one")])
  /\ existsb (@is_diagnostic string)
       [Created (emoji Undefined "x"); Created (emoji (Str "1") "one")] = false.
Proof. split; reflexivity. Qed.

Lemma missing_id_is_created_witness :
  emojis_of (client_with []) (data_guild_id (sync_event demo_malformed)) = Some [] /\
  store_ok (@nil (jsid * Emoji string)) = true /\
  data_emojis (sync_event demo_malformed) = Some demo_malformed /\
  distinct (payload_ids demo_malformed) = true /\
  In (raw_emoji Undefined "x") demo_malformed /\
  raw_id (raw_emoji Undefined "x") = Undefined /\
  map_get (@nil (jsid * Emoji string)) Undefined = None /\
  exists client' tr S',
    handle named_equals (client_with []) (sync_event demo_malformed)
      = Returned (client', tr) /\
    In (Created (setup (raw_emoji Undefined "x"))) tr /\
    emojis_of client' (data_guild_id (sync_event demo_malformed)) = Some S' /\
    map_get S' Undefined = Some (setup (raw_emoji Undefined "x")) /\
    existsb (@is_diagnostic string) tr = false /\
    (forall raw n, In raw demo_malformed ->
                   In n (classify named_equals [] raw) -> In n tr).
Proof.
  split; [reflexivity|]. split; [reflexivity|]. split; [reflexivity|].
  split; [reflexivity|]. split; [now left|]. split; [reflexivity|].
  split; [reflexivity|].
  apply (missing_id_is_created string named_equals (client_with [])
           (sync_event demo_malformed) [] demo_malformed (raw_emoji Undefined "x"));
    try reflexivity.
  now left.
Defined.

(** C7 fails as stated: for a guild that is not cached nothing at all is
    emitted, so no diagnostic either. *)
Lemma uncached_guild_no_diagnostic :
  ~ exists client' tr info,
      handle named_equals empty_client (sync_event demo_payload)
        = Returned (client', tr) /\
      In (Diagnostic string info) tr.
Proof.
  intros [client' [tr [info [H Hin]]]]. vm_compute in H. inversion H. subst.
  contradiction.
Qed.

Lemma uncached_guild_noop_witness :
  emojis_of empty_client (data_guild_id (sync_event demo_payload)) = None /\
  handle named_equals empty_client (sync_event demo_payload)
    = Returned (empty_client, []).
Proof.
  split; [reflexivity|].
  apply (uncached_guild_noop string named_equals empty_client (sync_event demo_payload)).
  reflexivity.
Defined.

End EmojiSync.

(* ================================================================== *)
(** * The partial-message resolver *)
(* ================================================================== *)

Module Resolver.

Import GenericAction.

Lemma js_or_same (a : jsid) : js_or a a = a.
Proof. unfold js_or. now destruct (truthy a). Qed.

(** C5 fails as stated: an entity that has [_patch], cached under the
    requested id, comes back as it was although [cache] is true. *)
Lemma cached_entity_not_patched :
  getPayload demo_client (reference_payload (reference_to (Str "m")) demo_channel)
             demo_store (Str "m") MESSAGE true ClsMessage
  = Returned {| result := Some (Patchable (Str "m") []);
                manager_after := demo_store;
                requests := [] |}
  /\ has__patch (Patchable (Str "m") []) = true
  /\ _patch (Patchable (Str "m") [])
            (reference_payload (reference_to (Str "m")) demo_channel)
     <> Patchable (Str "m") [].
Proof.
  split; [reflexivity|]. split; [reflexivity|]. discriminate.
Qed.

(** C5, as the code has it. When the id is present in the store,
    [getPayload] returns the cached instance as it is and leaves the
    store alone, whatever the [cache] flag and whether or not the entity
    has a patch function; no request is sent. [getMessage] does the same
    for an event that carries no message of its own. The patch runs only
    behind the guard for a missing id: when nothing is stored under [id],
    the type is an allowed partial, [id] is falsy and an entity is stored
    under [data.id], that entity is patched if it has [_patch] and
    [cache] is true, and returned. *)
Theorem cached_returned_as_is (client : Client) (manager : JsMap (option Entity))
    (id : jsid) (existing : Entity) :
  js_get manager id = Some existing ->
  (forall data partialType cache cls,
     getPayload client data manager id partialType cache cls
     = Returned {| result := Some existing; manager_after := manager;
                   requests := [] |}) /\
  (forall data channel cache,
     ch_messages channel = manager ->
     js_or (ev_message_id data) (ev_id data) = id ->
     ev_message data = None ->
     getMessage client data channel cache
     = Returned {| result := Some existing; manager_after := manager;
                   requests := [] |}) /\
  (forall data other partialType cache cls,
     js_get manager other = None ->
     truthy other = false ->
     raw_id data = id ->
     includes (partials client) partialType = true ->
     getPayload client data manager other partialType cache cls
     = Returned
         (if has__patch existing && cache
          then {| result := Some (_patch existing data);
                  manager_after := map_set id (Some (_patch existing data)) manager;
                  requests := [] |}
          else {| result := Some existing; manager_after := manager;
                  requests := [] |})).
Proof.
  intro H. split; [|split].
  - intros data partialType cache cls. unfold getPayload. now rewrite H.
  - intros data channel cache Hm Hid Hmsg. unfold getMessage. rewrite Hmsg, Hm, Hid.
    unfold getPayload. now rewrite H.
  - intros data other partialType cache cls Hnone Hfalsy Hid Hallowed.
    unfold getPayload. rewrite Hnone, Hallowed. unfold js_or. rewrite Hfalsy, Hid, H.
    now destruct (has__patch existing && cache).
Qed.

Lemma cached_returned_as_is_witness :
  js_get demo_store (Str "m") = Some (Patchable (Str "m") []) /\
  (forall data partialType cache cls,
     getPayload demo_client data demo_store (Str "m") partialType cache cls
     = Returned {| result := Some (Patchable (Str "m") []);
                   manager_after := demo_store; requests := [] |}) /\
  (forall data channel cache,
     ch_messages channel = demo_store ->
     js_or (ev_message_id data) (ev_id data) = Str "m" ->
     ev_message data = None ->
     getMessage demo_client data channel cache
     = Returned {| result := Some (Patchable (Str "m") []);
                   manager_after := demo_store; requests := [] |}) /\
  (forall data other partialType cache cls,
     js_get demo_store other = None ->
     truthy other = false ->
     raw_id data = Str "m" ->
     includes (partials demo_client) partialType = true ->
     getPayload demo_client data demo_store other partialType cache cls
     = Returned
         (if has__patch (Patchable (Str "m") []) && cache
          then {| result := Some (_patch (Patchable (Str "m") []) data);
                  manager_after :=
                    map_set (Str "m") (Some (_patch (Patchable (Str "m") []) data))
                            demo_store;
                  requests := [] |}
          else {| result := Some (Patchable (Str "m") []);
                  manager_after := demo_store; requests := [] |})).
Proof.
  split; [reflexivity|].
  apply (cached_returned_as_is demo_client demo_store (Str "m") (Patchable (Str "m") [])).
  reflexivity.
Defined.

(** C9 fails as stated: with the message absent from the store and
    message partials allowed, [getPayload] throws when the client does
    not cache the channel the payload names, and for a payload that
    carries content and author the Message it builds is not partial. *)
Lemma absent_message_not_always_stub :
  js_get demo_store (Str "n") = None /\
  includes (partials stranger_client) MESSAGE = true /\
  getPayload stranger_client (reference_payload (reference_to (Str "n")) demo_channel)
             demo_store (Str "n") MESSAGE true ClsMessage
  = Thrown "TypeError: Cannot read property 'guild' of undefined" /\
  includes (partials demo_client) MESSAGE = true /\
  getPayload demo_client demo_full demo_store (Str "n") MESSAGE true ClsMessage
  = Returned
      {| result := Some (EMessage {| msg_id := Str "n"; msg_channel := Str "c";
                                     msg_deleted := false;
                                     msg_content := Some "hello"%string;
                                     msg_author := Some "u"%string |});
         manager_after :=
           demo_store ++ [(Str "n",
                           Some (EMessage {| msg_id := Str "n"; msg_channel := Str "c";
                                             msg_deleted := false;
                                             msg_content := Some "hello"%string;
                                             msg_author := Some "u"%string |}))];
         requests := [] |} /\
  partial {| msg_id := Str "n"; msg_channel := Str "c"; msg_deleted := false;
             msg_content := Some "hello"%string; msg_author := Some "u"%string |}
  = false.
Proof. repeat split. Qed.

(** C9, as the code has it. Take a message id [M] that is not in the
    store, with message partials allowed, and [getPayload] called with
    the Message class. For a payload that carries the id [M], a
    channel_id and a guild_id and nothing else, no content and no author
    in particular, and a channel that the client caches under that
    channel_id, it returns a new [Message] with id [M], no content and no
    author, so [partial] is true; the stub is stored under [M] when
    [cache] is true and the store is left alone otherwise; no request is
    sent. [getMessage] builds such a payload, so the same holds for an
    event that carries no message of its own. When the client does not
    cache the channel, both throw. *)
Theorem absent_message_stub (client : Client) (manager : JsMap (option Entity))
    (M : jsid) (cache : bool) :
  js_get manager M = None ->
  includes (partials client) MESSAGE = true ->
  (forall data ch,
     raw_id data = M -> raw_content data = None -> raw_author data = None ->
     map_get (channels client) (raw_channel_id data) = Some ch ->
     exists stub,
       getPayload client data manager M MESSAGE cache ClsMessage
       = Returned {| result := Some (EMessage stub);
                     manager_after :=
                       if cache then map_set M (Some (EMessage stub)) manager
                       else manager;
                     requests := [] |} /\
       msg_id stub = M /\ partial stub = true /\
       msg_content stub = None /\ msg_author stub = None /\
       (cache = true ->
        js_get (map_set M (Some (EMessage stub)) manager) M = Some (EMessage stub))) /\
  (forall data channel ch,
     ch_messages channel = manager ->
     js_or (ev_message_id data) (ev_id data) = M ->
     ev_message data = None ->
     map_get (channels client) (ch_id channel) = Some ch ->
     exists stub,
       getMessage client data channel cache
       = Returned {| result := Some (EMessage stub);
                     manager_after :=
                       if cache then map_set M (Some (EMessage stub)) manager
                       else manager;
                     requests := [] |} /\
       msg_id stub = M /\ partial stub = true /\
       msg_content stub = None /\ msg_author stub = None /\
       (cache = true ->
        js_get (map_set M (Some (EMessage stub)) manager) M = Some (EMessage stub))) /\
  (forall data,
     raw_id data = M ->
     map_get (channels client) (raw_channel_id data) = None ->
     exists err,
       getPayload client data manager M MESSAGE cache ClsMessage = Thrown err) /\
  (forall data channel,
     ch_messages channel = manager ->
     js_or (ev_message_id data) (ev_id data) = M ->
     ev_message data = None ->
     map_get (channels client) (ch_id channel) = None ->
     exists err, getMessage client data channel cache = Thrown err).
Proof.
  intros Habsent Hallowed.
  assert (forall data ch,
     raw_id data = M -> raw_content data = None -> raw_author data = None ->
     map_get (channels client) (raw_channel_id data) = Some ch ->
     exists stub,
       getPayload client data manager M MESSAGE cache ClsMessage
       = Returned {| result := Some (EMessage stub);
                     manager_after :=
                       if cache then map_set M (Some (EMessage stub)) manager
                       else manager;
                     requests := [] |} /\
       msg_id stub = M /\ partial stub = true /\
       msg_content stub = None /\ msg_author stub = None /\
       (cache = true ->
        js_get (map_set M (Some (EMessage stub)) manager) M = Some (EMessage stub)))
    as Hpayload.
  { intros data ch Hid Hcontent Hauthor Hch.
    exists {| msg_id := M; msg_channel := ch_id ch; msg_deleted := false;
              msg_content := None; msg_author := None |}.
    split.
    - unfold getPayload. rewrite Habsent, Hallowed. rewrite Hid, js_or_same, Habsent.
      rewrite Hch. unfold new_Message. rewrite Hid, Hcontent, Hauthor. simpl.
      now rewrite js_or_same.
    - repeat split. intros _. unfold js_get. now rewrite map_get_set_same. }
  assert (forall data,
     raw_id data = M ->
     map_get (channels client) (raw_channel_id data) = None ->
     exists err,
       getPayload client data manager M MESSAGE cache ClsMessage = Thrown err)
    as Hthrows.
  { intros data Hid Hch. unfold getPayload.
    rewrite Habsent, Hallowed, Hid, js_or_same, Habsent, Hch. simpl. eauto. }
  split; [exact Hpayload|].
  split.
  { intros data channel ch Hm Hid Hmsg Hch. unfold getMessage. rewrite Hmsg, Hm, Hid.
    apply (Hpayload (reference_payload data channel) ch); try reflexivity.
    - simpl. exact Hid.
    - simpl. exact Hch. }
  split; [exact Hthrows|].
  intros data channel Hm Hid Hmsg Hch. unfold getMessage. rewrite Hmsg, Hm, Hid.
  apply (Hthrows (reference_payload data channel)).
  - simpl. exact Hid.
  - simpl. exact Hch.
Qed.

Lemma absent_message_stub_witness :
  js_get demo_store (Str "n") = None /\
  includes (partials demo_client) MESSAGE = true /\
  ch_messages demo_channel = demo_store /\
  js_or (ev_message_id (reference_to (Str "n"))) (ev_id (reference_to (Str "n")))
    = Str "n" /\
  ev_message (reference_to (Str "n")) = None /\
  map_get (channels demo_client) (ch_id demo_channel) = Some demo_channel /\
  exists stub,
    getMessage demo_client (reference_to (Str "n")) demo_channel true
    = Returned {| result := Some (EMessage stub);
                  manager_after := map_set (Str "n") (Some (EMessage stub)) demo_store;
                  requests := [] |} /\
    msg_id stub = Str "n" /\ partial stub = true /\
    msg_content stub = None /\ msg_author stub = None /\
    (true = true ->
     js_get (map_set (Str "n") (Some (EMessage stub)) demo_store) (Str "n")
     = Some (EMessage stub)).
Proof.
  split; [reflexivity|]. split; [reflexivity|]. split; [reflexivity|].
  split; [reflexivity|]. split; [reflexivity|]. split; [reflexivity|].
  apply (proj1 (proj2 (absent_message_stub demo_client demo_store (Str "n") true
                         eq_refl eq_refl))
           (reference_to (Str "n")) demo_channel demo_channel);
    reflexivity.
Defined.

(** The stub of the example, as [getMessage] returns and stores it. *)
Example stub_for_n :
  getMessage demo_client (reference_to (Str "n")) demo_channel true
  = Returned {| result := Some (EMessage demo_stub);
                manager_after := demo_store ++ [(Str "n", Some (EMessage demo_stub))];
                requests := [] |}
  /\ partial demo_stub = true.
Proof. split; reflexivity. Qed.

(** Without message partials nothing is built for a missing id. *)
Example no_partials_nothing :
  getMessage {| partials := []; channels := channels demo_client |}
             (reference_to (Str "n")) demo_channel true
  = Returned {| result := None; manager_after := demo_store; requests := [] |}.
Proof. reflexivity. Qed.

End Resolver.

(* ================================================================== *)
(** * The Collector life cycle *)
(* ================================================================== *)

Module Lifecycle.

Import Collector.

Lemma scheduled_clearTimeout (e : Env) (t : nat) (tm : Timer) :
  In tm (scheduled (clearTimeout e t)) <-> In tm (scheduled e) /\ timer_id tm <> t.
Proof.
  unfold clearTimeout, without. simpl. rewrite filter_In, negb_true_iff, Nat.eqb_neq.
  reflexivity.
Qed.

Section Hooks.

Variables Args Value : Type.
Variable filter : Args -> JsMap Value -> bool.
Variable handle : Args -> Collector Value -> option (jsid * Value).
Variable postCheck : Args -> Collector Value -> option string.

Local Notation "'World'" := (Collector.World Args Value).
Local Notation "'handle_event'" := (_handle filter handle postCheck).
Local Notation "'collect'" := (collect_event filter handle).

Lemma count_end_app (l1 l2 : list (Emitted Args Value)) :
  count_end (l1 ++ l2) = count_end l1 + count_end l2.
Proof. unfold count_end. now rewrite filter_app, length_app. Qed.

(** Shrinking the timer queue, or moving the clock, keeps a world
    consistent. *)
Lemma consistent_env (opts : CollectorOptions) (w : World) (e' : Env) :
  consistent opts w ->
  (forall tm, In tm (scheduled e') -> In tm (scheduled (env w))) ->
  next_handle (env w) <= next_handle e' ->
  consistent opts {| env := e'; self := self w; emitted := emitted w;
                     cleanups := cleanups w |}.
Proof.
  intros [C1 C2 C3 C4 C5 C6 C7 C8] Hsub Hnext.
  constructor; simpl; auto.
  intros t Ht. specialize (C8 t Ht). lia.
Qed.

Lemma consistent_stop (opts : CollectorOptions) (w : World) (reason : option string) :
  consistent opts w -> consistent opts (stop reason w).
Proof.
  intros C. unfold stop. destruct (ended (self w)) eqn:E; [assumption|].
  destruct C as [C1 C2 C3 C4 C5 C6 C7 C8]. rewrite E in C2.
  constructor; simpl.
  - assumption.
  - rewrite count_end_app, C2. reflexivity.
  - rewrite count_end_app, C3, C2. reflexivity.
  - intros _. now split.
  - intros tm Hin. exfalso.
    assert (In tm (scheduled (env w)) /\
            _timeout (self w) <> Some (timer_id tm) /\
            _idletimeout (self w) <> Some (timer_id tm)) as [H1 [H2 H3]].
    { destruct (_timeout (self w)) as [a|], (_idletimeout (self w)) as [b|];
        repeat (apply scheduled_clearTimeout in Hin; destruct Hin as [Hin ?]);
        repeat split; try assumption; try discriminate; congruence. }
    destruct (C5 tm H1); contradiction.
  - discriminate.
  - intros _. reflexivity.
  - intros t [H|H]; discriminate.
Qed.

Lemma consistent_collect (opts : CollectorOptions) (w : World) (args : Args) :
  consistent opts w -> consistent opts (collect args w).
Proof.
  intros C. unfold collect_event.
  destruct (handle args (self w)) as [[key value]|]; [|assumption].
  destruct (filter args (collected (self w))); [|assumption].
  destruct C as [C1 C2 C3 C4 C5 C6 C7 C8].
  assert (forall l : list (Emitted Args Value),
            count_end (l ++ [Collect Args value; FullCollect Value args]) = count_end l)
    as Hcount.
  { intro l. rewrite count_end_app. unfold count_end. simpl. lia. }
  destruct (_idletimeout (self w)) as [t|] eqn:I; simpl.
  - constructor; simpl.
    + assumption.
    + now rewrite Hcount.
    + now rewrite Hcount.
    + intro E. destruct (C4 E) as [_ H]. discriminate.
    + intros tm Hin. apply in_app_or in Hin. destruct Hin as [Hin|[<-|[]]].
      * unfold without in Hin. apply filter_In in Hin. destruct Hin as [Hin Hne].
        apply negb_true_iff, Nat.eqb_neq in Hne.
        destruct (C5 tm Hin) as [H|H]; [now left | congruence].
      * now right.
    + intros _ _. eauto.
    + assumption.
    + intros x [H|H].
      * specialize (C8 x (or_introl H)). lia.
      * inversion H. lia.
  - constructor; simpl.
    + assumption.
    + now rewrite Hcount.
    + now rewrite Hcount.
    + intro E. now destruct (C4 E).
    + intros tm Hin. destruct (C5 tm Hin) as [H|H]; [now left | discriminate].
    + intros E G. destruct (C6 E G) as [x H]. discriminate.
    + assumption.
    + intros x [H|H]; [apply C8; now left | discriminate].
Qed.

Lemma consistent_handle (opts : CollectorOptions) (w : World) (args : Args) :
  consistent opts w -> consistent opts (handle_event args w).
Proof.
  intro C. unfold _handle.
  destruct (truthy_reason (postCheck args (self (collect args w)))).
  - apply consistent_stop. now apply consistent_collect.
  - now apply consistent_collect.
Qed.

Lemma consistent_fire (opts : CollectorOptions) (w : World) (tm : Timer) :
  consistent opts w -> consistent opts (fire tm w).
Proof.
  intro C. unfold fire. destruct (callback tm) as [reason].
  match goal with |- context [stop (Some reason) ?w0] => set (w0' := w0) end.
  assert (consistent opts w0') as C0.
  { apply (consistent_env opts w); [assumption | | simpl; lia].
    simpl. intros x Hx. unfold without in Hx. apply filter_In in Hx. tauto. }
  pose proof (consistent_stop opts w0' (Some reason) C0) as C1.
  apply (consistent_env opts (stop (Some reason) w0')); [assumption | | simpl; lia].
  intros x Hx. exact Hx.
Qed.

Lemma consistent_set_now (opts : CollectorOptions) (w : World) (t : nat) :
  consistent opts w -> consistent opts (set_now t w).
Proof.
  intro C. unfold set_now. apply (consistent_env opts w); simpl; auto.
Qed.

Lemma consistent_advance (opts : CollectorOptions) (fuel t : nat) (w : World) :
  consistent opts w -> consistent opts (advance_fuel fuel t w).
Proof.
  revert w. induction fuel as [|n IH]; intros w C; simpl.
  - now apply consistent_set_now.
  - destruct (earliest (scheduled (env w))) as [tm|]; [|now apply consistent_set_now].
    destruct (due tm <=? t); [|now apply consistent_set_now].
    apply IH. now apply consistent_fire.
Qed.

Lemma consistent_new (t0 : nat) (opts : CollectorOptions) :
  consistent opts (new_Collector Args Value (fresh_env t0) opts).
Proof.
  unfold new_Collector.
  destruct (given (time opts)) eqn:T, (given (idle opts)) eqn:I; simpl;
    constructor; simpl; auto; try discriminate;
    try (intros _ _; eauto; fail);
    try (intros tm [<-|[<-|[]]]; simpl; auto; fail);
    try (intros tm [<-|[]]; simpl; auto; fail);
    try (intros _; discriminate);
    try (intros _ []; fail);
    try (intros t [H|H]; inversion H; lia);
    try (intros; congruence).
Qed.

Lemma consistent_run (opts : CollectorOptions) (ops : list (Op Args)) (w : World) :
  consistent opts w -> consistent opts (run filter handle postCheck ops w).
Proof.
  revert w. induction ops as [|op rest IH]; intros w C; simpl; [assumption|].
  apply IH. destruct op; simpl.
  - now apply consistent_stop.
  - now apply consistent_handle.
  - now apply consistent_advance.
Qed.

Lemma consistent_started (t0 : nat) (opts : CollectorOptions) (ops : list (Op Args)) :
  consistent opts (started filter handle postCheck t0 opts ops).
Proof. apply consistent_run, consistent_new. Qed.


Lemma ended_nothing_scheduled (opts : CollectorOptions) (w : World) :
  consistent opts w -> ended (self w) = true -> scheduled (env w) = [].
Proof.
  intros C E. destruct (ended_no_timer C E) as [H1 H2].
  destruct (scheduled (env w)) as [|tm rest] eqn:S; [reflexivity|].
  exfalso. destruct (timers_owned C tm) as [H|H].
  - rewrite S. now left.
  - congruence.
  - congruence.
Qed.

Lemma earliest_spec (l : list Timer) (tm : Timer) :
  earliest l = Some tm -> In tm l /\ forall x, In x l -> due tm <= due x.
Proof.
  revert tm. induction l as [|a rest IH]; simpl; intros tm H; [discriminate|].
  destruct (earliest rest) as [u|] eqn:Eu.
  - destruct (IH u eq_refl) as [Hin Hmin].
    destruct (due a <=? due u) eqn:L; inversion H; subst.
    + apply Nat.leb_le in L. split; [now left|].
      intros x [<-|Hx]; [lia|]. specialize (Hmin x Hx). lia.
    + apply Nat.leb_gt in L. split; [now right|].
      intros x [<-|Hx]; [lia | now apply Hmin].
  - inversion H. subst. split; [now left|].
    intros x [<-|Hx]; [lia|]. destruct rest; [contradiction | simpl in Eu].
    destruct (earliest rest); [destruct (due t <=? due t0)|]; discriminate.
Qed.

Lemma earliest_None (l : list Timer) : earliest l = None -> l = [].
Proof.
  destruct l as [|a rest]; simpl; [reflexivity|].
  destruct (earliest rest) as [u|]; [destruct (due a <=? due u)|]; discriminate.
Qed.

Lemma without_length (i : nat) (l : list Timer) :
  List.length (without i l) <= List.length l.
Proof.
  unfold without. induction l as [|a rest IH]; simpl; [lia|].
  destruct (negb (timer_id a =? i)); simpl; lia.
Qed.

Lemma without_shrinks (tm : Timer) (l : list Timer) :
  In tm l -> List.length (without (timer_id tm) l) < List.length l.
Proof.
  unfold without. induction l as [|a rest IH]; simpl; [contradiction|].
  intros [->|Hin].
  - rewrite Nat.eqb_refl. simpl. pose proof (without_length (timer_id tm) rest).
    unfold without in *. lia.
  - specialize (IH Hin). destruct (negb (timer_id a =? timer_id tm)); simpl; lia.
Qed.

Lemma stop_scheduled_length (reason : option string) (w : World) :
  List.length (scheduled (env (stop reason w))) <= List.length (scheduled (env w)).
Proof.
  unfold stop. destruct (ended (self w)); [lia|]. simpl.
  destruct (_timeout (self w)) as [a|], (_idletimeout (self w)) as [b|]; simpl.
  - pose proof (without_length b (without a (scheduled (env w)))).
    pose proof (without_length a (scheduled (env w))). lia.
  - apply without_length.
  - apply without_length.
  - lia.
Qed.

Lemma fire_shrinks (tm : Timer) (w : World) :
  In tm (scheduled (env w)) ->
  List.length (scheduled (env (fire tm w))) < List.length (scheduled (env w)).
Proof.
  intro Hin. unfold fire. destruct (callback tm) as [reason]. simpl.
  match goal with |- context [stop (Some reason) ?w0] => set (w0' := w0) end.
  pose proof (stop_scheduled_length (Some reason) w0') as H1.
  pose proof (without_shrinks tm (scheduled (env w)) Hin) as H3.
  simpl in H1. lia.
Qed.

(** The rounds [advance_to] allows are enough: afterwards nothing that
    was due by [t] is still scheduled. *)
Lemma advance_fuel_complete (fuel t : nat) (w : World) :
  List.length (scheduled (env w)) <= fuel ->
  forall tm, In tm (scheduled (env (advance_fuel fuel t w))) -> t < due tm.
Proof.
  revert w. induction fuel as [|n IH]; intros w Hlen tm; simpl.
  - destruct (scheduled (env w)); [contradiction | simpl in Hlen; lia].
  - destruct (earliest (scheduled (env w))) as [first|] eqn:Ef.
    + destruct (earliest_spec _ _ Ef) as [Hin Hmin].
      destruct (due first <=? t) eqn:L.
      * apply IH. pose proof (fire_shrinks first w Hin). lia.
      * apply Nat.leb_gt in L. simpl. intro Htm. specialize (Hmin tm Htm). lia.
    + apply earliest_None in Ef. simpl. rewrite Ef. contradiction.
Qed.

Lemma advance_to_complete (t : nat) (w : World) (tm : Timer) :
  In tm (scheduled (env (advance_to t w))) -> t < due tm.
Proof. apply advance_fuel_complete. lia. Qed.

(** ** The platform's delay *)

Lemma platform_delay_kept (d : nat) :
  1 <= d -> (N.of_nat d <= TIMEOUT_MAX)%N -> platform_delay d = d.
Proof.
  intros H1 H2. unfold platform_delay.
  apply Nat.leb_le in H1. apply N.leb_le in H2. now rewrite H1, H2.
Qed.

Lemma platform_delay_le (d : nat) : 1 <= d -> platform_delay d <= d.
Proof.
  intro H. unfold platform_delay.
  destruct ((1 <=? d) && (N.of_nat d <=? TIMEOUT_MAX)%N); lia.
Qed.

Lemma given_delay (o : option nat) : given o = true -> 1 <= delay_of o.
Proof. destruct o as [[|d]|]; simpl; try discriminate. lia. Qed.

(** ** Properties of the Collector *)

(** C10, as the code has it. [_handle] evaluates postCheck on every
    event, collected or not. When [handle] yields nothing, or the filter
    rejects the event, a postCheck result that passes [if (post)], that
    is a non-empty string, ends the active collector with that reason,
    the accumulation being what it was before the event; a result that
    is null or the empty string leaves the collector as it was. *)
Theorem postCheck_ends_without_collecting (w : World) (args : Args) :
  ended (self w) = false ->
  handle args (self w) = None \/ filter args (collected (self w)) = false ->
  (forall reason,
     postCheck args (self w) = Some reason ->
     reason <> EmptyString ->
     handle_event args w = stop (Some reason) w /\
     ended (self (handle_event args w)) = true /\
     collected (self (handle_event args w)) = collected (self w) /\
     emitted (handle_event args w)
     = emitted w ++ [End Args (collected (self w)) reason]) /\
  (postCheck args (self w) = None \/ postCheck args (self w) = Some EmptyString ->
   handle_event args w = w).
Proof.
  intros E Hnot.
  assert (collect args w = w) as Hsame.
  { unfold collect_event. destruct Hnot as [H|H].
    - now rewrite H.
    - destruct (handle args (self w)) as [[key value]|]; [now rewrite H | reflexivity]. }
  split.
  - intros reason Hpost Hreason.
    assert (handle_event args w = stop (Some reason) w) as Hstop.
    { unfold _handle. rewrite Hsame, Hpost. simpl.
      destruct (String.eqb reason EmptyString) eqn:Q; [|reflexivity].
      apply String.eqb_eq in Q. contradiction. }
    rewrite Hstop. split; [reflexivity|].
    unfold stop. rewrite E. simpl. repeat split.
  - intros [Hpost|Hpost]; unfold _handle; rewrite Hsame, Hpost; reflexivity.
Qed.

(** C8. Take an active collector with an idle option, and an event that
    is collected and after which postCheck gives no reason. [_handle]
    then clears the idle timer it held and schedules a new one with the
    idle option as its delay, due after the delay the platform runs it
    with, which is the idle option itself up to [TIMEOUT_MAX]. If the
    collector has no time limit, it is still active at every time before
    that, and at any later time it has ended with reason 'idle'. *)
Theorem idle_timer_restarts (t0 : nat) (opts : CollectorOptions) (ops : list (Op Args))
    (w : World) (args : Args) (key : jsid) (value : Value) :
  w = started filter handle postCheck t0 opts ops ->
  given (idle opts) = true ->
  ended (self w) = false ->
  handle args (self w) = Some (key, value) ->
  filter args (collected (self w)) = true ->
  truthy_reason (postCheck args (self (collect args w))) = None ->
  exists old new,
    _idletimeout (self w) = Some old /\
    _idletimeout (self (handle_event args w)) = Some new /\
    ~ In old (map timer_id (scheduled (env (handle_event args w)))) /\
    In {| timer_id := new;
          due := now (env w) + platform_delay (delay_of (idle opts));
          callback := StopWith "idle" |}
       (scheduled (env (handle_event args w))) /\
    ended (self (handle_event args w)) = false /\
    ((N.of_nat (delay_of (idle opts)) <= TIMEOUT_MAX)%N ->
       platform_delay (delay_of (idle opts)) = delay_of (idle opts)) /\
    (given (time opts) = false ->
       (forall t, t < now (env w) + platform_delay (delay_of (idle opts)) ->
                  ended (self (advance_to t (handle_event args w))) = false) /\
       (forall t, now (env w) + platform_delay (delay_of (idle opts)) <= t ->
                  ended (self (advance_to t (handle_event args w))) = true /\
                  emitted (advance_to t (handle_event args w))
                  = emitted (handle_event args w)
                      ++ [End Args (collected (self (handle_event args w))) "idle"])).
Proof.
  intros -> Hidle E Hh Hf Hpost.
  pose proof (consistent_started t0 opts ops) as C.
  set (w := started filter handle postCheck t0 opts ops) in *.
  destruct (idle_armed C E Hidle) as [old Hold].
  assert (handle_event args w = collect args w) as Hw'
    by (unfold _handle; now rewrite Hpost).
  rewrite Hw'. clear Hw' Hpost.
  unfold collect_event. rewrite Hh, Hf, Hold. simpl.
  rewrite (keeps_options C).
  exists old, (next_handle (env w)).
  split; [reflexivity|]. split; [reflexivity|].
  split.
  { rewrite map_app, in_app_iff. simpl. intros [H|[H|[]]].
    - apply in_map_iff in H. destruct H as [tm [Hid Hin]].
      unfold without in Hin. apply filter_In in Hin. destruct Hin as [_ Hne].
      apply negb_true_iff, Nat.eqb_neq in Hne. contradiction.
    - pose proof (handles_known C (or_intror Hold)). lia. }
  split; [apply in_or_app; right; now left|].
  split; [assumption|].
  split; [apply platform_delay_kept; now apply given_delay|].
  intro Htime.
  assert (without old (scheduled (env w)) = []) as Hgone.
  { pose proof (no_time_timer C Htime) as Hnone.
    unfold without.
    destruct (List.filter _ (scheduled (env w))) as [|tm rest] eqn:F; [reflexivity|].
    exfalso.
    assert (In tm (List.filter (fun t => negb (timer_id t =? old)) (scheduled (env w))))
      as Hin by (rewrite F; now left).
    apply filter_In in Hin. destruct Hin as [Hin Hne].
    apply negb_true_iff, Nat.eqb_neq in Hne.
    destruct (timers_owned C tm Hin) as [H|H]; congruence. }
  rewrite Hgone. unfold advance_to. simpl.
  split.
  - intros t Ht. apply Nat.leb_gt in Ht. rewrite Ht. simpl. assumption.
  - intros t Ht. apply Nat.leb_le in Ht. rewrite Ht. unfold fire, stop. simpl.
    rewrite E. simpl. now split.
Qed.

End Hooks.

(** A collector with [time] of 50 ms and no event: it ends at 50 ms
    with reason 'time' and an empty accumulation. *)
Example time_scenario :
  emitted (started accept_all keep_event never_done 0
             {| time := Some 50; idle := None |} [Advance nat 50])
  = [End nat [] "time"]
  /\ ended (self (started accept_all keep_event never_done 0
                    {| time := Some 50; idle := None |} [Advance nat 49])) = false.
Proof. split; reflexivity. Qed.

(** Both timers due at the same instant, then an explicit stop, then an
    event whose postCheck asks to end: one 'end', with the reason of the
    first. *)
Example four_conditions :
  emitted (started accept_all keep_event always_limit 0
             {| time := Some 100; idle := Some 100 |}
             [Advance nat 100; CallStop nat None; Deliver 3])
  = [End nat [] "time"; Collect nat 3; FullCollect nat 3].
Proof. reflexivity. Qed.

(** C10 fails as stated: the empty string is a postCheck result that is
    not null, and the collector, which collected nothing, stays active
    and emits nothing. *)
Lemma empty_reason_does_not_end :
  always_empty 5 (self (started accept_all keep_nothing always_empty 0 idle_100 []))
    = Some EmptyString /\
  ended (self (started accept_all keep_nothing always_empty 0 idle_100 [])) = false /\
  _handle accept_all keep_nothing always_empty 5
          (started accept_all keep_nothing always_empty 0 idle_100 [])
  = started accept_all keep_nothing always_empty 0 idle_100 [] /\
  ended (self (_handle accept_all keep_nothing always_empty 5
                 (started accept_all keep_nothing always_empty 0 idle_100 []))) = false /\
  emitted (_handle accept_all keep_nothing always_empty 5
             (started accept_all keep_nothing always_empty 0 idle_100 [])) = [].
Proof. repeat split. Qed.

Lemma postCheck_ends_without_collecting_witness :
  ended (self (started accept_all keep_nothing always_limit 0 idle_100 [])) = false /\
  (keep_nothing 5 (self (started accept_all keep_nothing always_limit 0 idle_100 [])) = None
   \/ accept_all 5
        (collected (self (started accept_all keep_nothing always_limit 0 idle_100 [])))
      = false) /\
  always_limit 5 (self (started accept_all keep_nothing always_limit 0 idle_100 []))
    = Some "limit"%string /\
  "limit"%string <> EmptyString /\
  ended (self (_handle accept_all keep_nothing always_limit 5
                 (started accept_all keep_nothing always_limit 0 idle_100 []))) = true /\
  emitted (_handle accept_all keep_nothing always_limit 5
             (started accept_all keep_nothing always_limit 0 idle_100 []))
  = [End nat [] "limit"].
Proof.
  assert ("limit"%string <> EmptyString) as Hne by discriminate.
  split; [reflexivity|]. split; [left; reflexivity|]. split; [reflexivity|].
  split; [exact Hne|].
  destruct (proj1 (postCheck_ends_without_collecting nat nat accept_all keep_nothing
                     always_limit
                     (started accept_all keep_nothing always_limit 0 idle_100 []) 5
                     eq_refl (or_introl eq_refl))
              "limit"%string eq_refl Hne) as [_ [H1 [_ H2]]].
  split; [exact H1 | exact H2].
Defined.

(** The idle example of the specification: idle of 100 ms, an item
    collected at 90 ms; still active at 150 ms, ended at 190 ms. *)
Lemma idle_timer_restarts_witness :
  given (idle idle_100) = true /\
  ended (self (started accept_all keep_event never_done 0 idle_100 [Advance nat 90]))
    = false /\
  now (env (started accept_all keep_event never_done 0 idle_100 [Advance nat 90])) = 90 /\
  platform_delay (delay_of (idle idle_100)) = 100 /\
  ended (self (advance_to 150
                 (_handle accept_all keep_event never_done 7
                    (started accept_all keep_event never_done 0 idle_100
                       [Advance nat 90])))) = false /\
  ended (self (advance_to 190
                 (_handle accept_all keep_event never_done 7
                    (started accept_all keep_event never_done 0 idle_100
                       [Advance nat 90])))) = true /\
  emitted (advance_to 190
             (_handle accept_all keep_event never_done 7
                (started accept_all keep_event never_done 0 idle_100
                   [Advance nat 90])))
  = emitted (_handle accept_all keep_event never_done 7
               (started accept_all keep_event never_done 0 idle_100 [Advance nat 90]))
      ++ [End nat (collected (self (_handle accept_all keep_event never_done 7
                     (started accept_all keep_event never_done 0 idle_100
                        [Advance nat 90])))) "idle"].
Proof.
  split; [reflexivity|]. split; [reflexivity|]. split; [reflexivity|].
  split; [reflexivity|].
  destruct (idle_timer_restarts nat nat accept_all keep_event never_done 0 idle_100
              [Advance nat 90] _ 7 (Str "k") 7
              eq_refl eq_refl eq_refl eq_refl eq_refl eq_refl)
    as [old [new [_ [_ [_ [_ [_ [_ H]]]]]]]].
  destruct (H eq_refl) as [Hbefore Hafter].
  split; [apply Hbefore; vm_compute; lia|].
  apply Hafter. vm_compute. lia.
Defined.

End Lifecycle.

(* ================================================================== *)
(** * mappify *)
(* ================================================================== *)

Module Snapshot.

Import GuildEmojisUpdate.

Section Entries.

Variable V : Type.

Lemma map_get_app (m1 m2 : JsMap V) (k : jsid) :
  map_get (m1 ++ m2) k =
  match map_get m1 k with Some v => Some v | None => map_get m2 k end.
Proof.
  induction m1 as [|[k' v'] rest IH]; simpl; [reflexivity|].
  destruct (jsid_eqb k k'); [reflexivity | exact IH].
Qed.

Lemma mappify_from (l acc : JsMap V) (k : jsid) :
  map_get (fold_left (fun map x => map_set (fst x) (snd x) map) l acc) k =
  match map_get (rev l) k with Some v => Some v | None => map_get acc k end.
Proof.
  revert acc. induction l as [|[k' v'] rest IH]; intro acc; simpl; [reflexivity|].
  rewrite IH, map_get_app. destruct (map_get (rev rest) k) as [v|]; [reflexivity|].
  simpl. destruct (jsid_eqb k k') eqn:E.
  - apply jsid_eqb_eq in E. subst. apply map_get_set_same.
  - apply map_get_set_other. apply jsid_eqb_neq in E. congruence.
Qed.

Lemma mappify_from_NoDup (l acc : JsMap V) :
  NoDup (map_keys acc) ->
  NoDup (map_keys (fold_left (fun map x => map_set (fst x) (snd x) map) l acc)).
Proof.
  revert acc. induction l as [|[k' v'] rest IH]; intros acc ND; simpl; [assumption|].
  apply IH. now apply map_keys_set_NoDup.
Qed.

(** X1. [mappify] builds a map with one entry per key, and a key that
    the iterable gives several times holds the value given last. *)
Theorem mappify_last_wins (iterable : list (jsid * V)) :
  NoDup (map_keys (mappify iterable)) /\
  forall k, map_get (mappify iterable) k = map_get (rev iterable) k.
Proof.
  unfold mappify. split.
  - apply mappify_from_NoDup. constructor.
  - intro k. rewrite mappify_from. simpl. now destruct (map_get (rev iterable) k).
Qed.

End Entries.

End Snapshot.

(* ================================================================== *)
(** * More on the resolver *)
(* ================================================================== *)

Module ResolverEdges.

Import GenericAction.

(** X2. A call of [getPayload] that returns has touched at most the
    entry under [id || data.id]: every other key reads as before, no
    key has left the store, and no request was sent. *)
Theorem getPayload_touches_one_key (client : Client) (data : RawMessage)
    (manager : JsMap (option Entity)) (id : jsid) (partialType : PartialType)
    (cache : bool) (cls : Cls) (out : Outcome) :
  getPayload client data manager id partialType cache cls = Returned out ->
  (forall k, k <> js_or id (raw_id data) ->
             map_get (manager_after out) k = map_get manager k) /\
  (forall k, In k (map_keys manager) -> In k (map_keys (manager_after out))) /\
  requests out = [].
Proof.
  unfold getPayload. intro H.
  assert (forall (v : option Entity),
            (forall k, k <> js_or id (raw_id data) ->
               map_get (map_set (js_or id (raw_id data)) v manager) k = map_get manager k) /\
            (forall k, In k (map_keys manager) ->
               In k (map_keys (map_set (js_or id (raw_id data)) v manager)))) as Hset.
  { intro v. split.
    - intros k Hk. apply map_get_set_other. congruence.
    - intros k Hk. apply map_keys_set. now right. }
  assert (forall o : Outcome, manager_after o = manager -> requests o = [] ->
            (forall k, k <> js_or id (raw_id data) ->
               map_get (manager_after o) k = map_get manager k) /\
            (forall k, In k (map_keys manager) -> In k (map_keys (manager_after o))) /\
            requests o = []) as Hsame.
  { intros o Hm Hr. rewrite Hm. repeat split; auto. }
  destruct (js_get manager id) as [existing|].
  { injection H as <-. now apply Hsame. }
  destruct (includes (partials client) partialType).
  2:{ injection H as <-. now apply Hsame. }
  destruct (js_get manager (js_or id (raw_id data))) as [existing|].
  { destruct (has__patch existing && cache); injection H as <-.
    - simpl. destruct (Hset (Some (_patch existing data))) as [H1 H2]. now repeat split.
    - now apply Hsame. }
  destruct cls.
  - destruct (map_get (channels client) (raw_channel_id data)) as [ch|]; simpl in H;
      [|discriminate].
    injection H as <-. simpl. destruct cache.
    + destruct (Hset (Some (EMessage
                  {| msg_id := raw_id data; msg_channel := ch_id ch;
                     msg_deleted := false;
                     msg_content := content_or_null (raw_content data);
                     msg_author := raw_author data |}))) as [H1 H2].
      now repeat split.
    + now repeat split.
  - destruct cache.
    + destruct (truthy id) eqn:T; [|discriminate]. injection H as <-. simpl.
      assert (js_or id (raw_id data) = id) as E by (unfold js_or; now rewrite T).
      destruct (Hset None) as [H1 H2]. rewrite E in *. now repeat split.
    + injection H as <-. now apply Hsame.
Qed.

Lemma getPayload_touches_one_key_witness :
  getPayload demo_client (reference_payload (reference_to (Str "n")) demo_channel)
             demo_store (Str "n") MESSAGE true ClsMessage
  = Returned {| result := Some (EMessage demo_stub);
                manager_after := demo_store ++ [(Str "n", Some (EMessage demo_stub))];
                requests := [] |}
  /\ map_get (demo_store ++ [(Str "n", Some (EMessage demo_stub))]) (Str "m")
     = map_get demo_store (Str "m").
Proof.
  split; [reflexivity|].
  apply (proj1 (getPayload_touches_one_key demo_client
                  (reference_payload (reference_to (Str "n")) demo_channel)
                  demo_store (Str "n") MESSAGE true ClsMessage
                  {| result := Some (EMessage demo_stub);
                     manager_after := demo_store ++ [(Str "n", Some (EMessage demo_stub))];
                     requests := [] |} eq_refl) (Str "m")).
  discriminate.
Defined.

(** X3. [getPayload] throws only behind the guard for a missing entry:
    nothing stored under [id], an allowed partial type, nothing stored
    under [id || data.id]. There, for a class other than Message, whose
    [entry] stays undefined, it throws exactly when [cache] is set and
    [id] is falsy; for Message it throws when the client does not cache
    the channel the payload names. *)
Theorem getPayload_throws_behind_guard (client : Client) (data : RawMessage)
    (manager : JsMap (option Entity)) (id : jsid) (partialType : PartialType)
    (cache : bool) (cls : Cls) :
  ((exists err, getPayload client data manager id partialType cache cls = Thrown err) ->
   js_get manager id = None /\
   includes (partials client) partialType = true /\
   js_get manager (js_or id (raw_id data)) = None) /\
  (js_get manager id = None ->
   includes (partials client) partialType = true ->
   js_get manager (js_or id (raw_id data)) = None ->
   (cls = ClsOther ->
    ((exists err, getPayload client data manager id partialType cache cls = Thrown err)
     <-> cache = true /\ truthy id = false)) /\
   (cls = ClsMessage ->
    map_get (channels client) (raw_channel_id data) = None ->
    exists err, getPayload client data manager id partialType cache cls = Thrown err)).
Proof.
  unfold getPayload. split.
  - intros [err H].
    destruct (js_get manager id); [discriminate|].
    destruct (includes (partials client) partialType); [|discriminate].
    destruct (js_get manager (js_or id (raw_id data))) as [e|]; [|now repeat split].
    destruct (has__patch e && cache); discriminate.
  - intros H1 H2 H3. rewrite H1, H2, H3. split.
    + intros ->. split.
      * intros [err H]. destruct cache; [|discriminate].
        destruct (truthy id); [discriminate | now split].
      * intros [-> ->]. eauto.
    + intros -> Hc. rewrite Hc. simpl. eauto.
Qed.

Lemma getPayload_throws_behind_guard_witness :
  js_get demo_store Undefined = None /\
  includes (partials demo_client) MESSAGE = true /\
  js_get demo_store (js_or Undefined (raw_id demo_full)) = None /\
  map_get (channels stranger_client) (raw_channel_id demo_full) = None /\
  (exists err,
     getPayload demo_client demo_full demo_store Undefined MESSAGE true ClsOther
     = Thrown err) /\
  (exists err,
     getPayload stranger_client demo_full demo_store Undefined MESSAGE false ClsMessage
     = Thrown err).
Proof.
  split; [reflexivity|]. split; [reflexivity|]. split; [reflexivity|].
  split; [reflexivity|].
  split.
  - apply (proj1 (proj2 (getPayload_throws_behind_guard demo_client demo_full demo_store
                           Undefined MESSAGE true ClsOther)
                    eq_refl eq_refl eq_refl) eq_refl).
    now split.
  - apply (proj2 (proj2 (getPayload_throws_behind_guard stranger_client demo_full
                           demo_store Undefined MESSAGE false ClsMessage)
                    eq_refl eq_refl eq_refl) eq_refl).
    reflexivity.
Defined.

(** X4. What a caching [getMessage] returned, a later [getMessage] for
    the same event on the channel with the store it left returns again,
    whatever the cache flag then, and leaves that store as it is. *)
Theorem getMessage_again (client : Client) (data : EventData) (channel : Channel)
    (cache2 : bool) (out : Outcome) (entity : Entity) :
  getMessage client data channel true = Returned out ->
  result out = Some entity ->
  getMessage client data
             {| ch_id := ch_id channel; ch_guild := ch_guild channel;
                ch_messages := manager_after out |} cache2
  = Returned {| result := Some entity; manager_after := manager_after out;
                requests := [] |}.
Proof.
  unfold getMessage. intros H Hres.
  destruct (ev_message data) as [m|].
  { inversion H. subst. simpl in *. now rewrite Hres. }
  set (M := js_or (ev_message_id data) (ev_id data)) in *.
  unfold getPayload in *. simpl in *. fold M in H. fold M.
  rewrite Resolver.js_or_same in *.
  destruct (js_get (ch_messages channel) M) as [existing|] eqn:G.
  { inversion H. subst. simpl in *. rewrite G. now rewrite Hres. }
  destruct (includes (partials client) MESSAGE).
  2:{ inversion H. subst. simpl in Hres. discriminate. }
  destruct (map_get (channels client) (ch_id channel)) as [ch|]; simpl in H;
    [|discriminate].
  inversion H. subst. simpl in *. inversion Hres. subst.
  unfold js_get at 1. rewrite Resolver.js_or_same, map_get_set_same. reflexivity.
Qed.

Lemma getMessage_again_witness :
  getMessage demo_client (reference_to (Str "n")) demo_channel true
  = Returned {| result := Some (EMessage demo_stub);
                manager_after := demo_store ++ [(Str "n", Some (EMessage demo_stub))];
                requests := [] |}
  /\ getMessage demo_client (reference_to (Str "n"))
       {| ch_id := ch_id demo_channel; ch_guild := ch_guild demo_channel;
          ch_messages := demo_store ++ [(Str "n", Some (EMessage demo_stub))] |} false
     = Returned {| result := Some (EMessage demo_stub);
                   manager_after := demo_store ++ [(Str "n", Some (EMessage demo_stub))];
                   requests := [] |}.
Proof.
  split; [reflexivity|].
  apply (getMessage_again demo_client (reference_to (Str "n")) demo_channel false
           {| result := Some (EMessage demo_stub);
              manager_after := demo_store ++ [(Str "n", Some (EMessage demo_stub))];
              requests := [] |} (EMessage demo_stub)); reflexivity.
Defined.

End ResolverEdges.

(* ================================================================== *)
(** * More on the Collector and the client timers *)
(* ================================================================== *)

Module TimerFacts.

Import Collector Timers.

Lemma set_delete_comm (i j : nat) (l : list nat) :
  set_delete i (set_delete j l) = set_delete j (set_delete i l).
Proof.
  unfold set_delete. induction l as [|x rest IH]; simpl; [reflexivity|].
  destruct (x =? j) eqn:J, (x =? i) eqn:I; simpl; rewrite ?J, ?I; simpl;
    now rewrite IH.
Qed.

Lemma ids_without (i : nat) (l : list Timer) :
  map timer_id (without i l) = set_delete i (map timer_id l).
Proof.
  unfold without, set_delete. induction l as [|x rest IH]; simpl; [reflexivity|].
  destruct (timer_id x =? i); simpl; now rewrite IH.
Qed.

(** The bookkeeping of [_timeouts] while the timer [i] is running its
    callback: the platform has dropped it, the set has not yet. *)
Lemma tracked_but_clear (i j : nat) (e : Env) :
  map timer_id (scheduled e) = set_delete i (_timeouts e) ->
  map timer_id (scheduled (clearTimeout e j))
  = set_delete i (_timeouts (clearTimeout e j)).
Proof.
  intro H. simpl. now rewrite ids_without, H, set_delete_comm.
Qed.

Lemma tracked_clear (j : nat) (e : Env) : tracked e -> tracked (clearTimeout e j).
Proof. unfold tracked. intro H. simpl. now rewrite ids_without, H. Qed.

Lemma tracked_set (e : Env) (action : Callback) (interval : nat) :
  tracked e -> tracked (fst (setTimeout e action interval)).
Proof. unfold tracked. intro H. simpl. now rewrite map_app, H. Qed.

Lemma clear_all (ids : list nat) (q : list Timer) :
  (forall tm, In tm q -> In (timer_id tm) ids) ->
  fold_left (fun q t => without t q) ids q = [].
Proof.
  revert q. induction ids as [|a rest IH]; intros q H; simpl.
  - destruct q as [|tm q']; [reflexivity|]. destruct (H tm (or_introl eq_refl)).
  - apply IH. intros tm Hin. unfold without in Hin. apply filter_In in Hin.
    destruct Hin as [Hin Hne]. apply negb_true_iff, Nat.eqb_neq in Hne.
    destruct (H tm Hin) as [E|E]; [congruence | assumption].
Qed.

Section Hooks.

Variables Args Value : Type.
Variable filter : Args -> JsMap Value -> bool.
Variable handle : Args -> Collector Value -> option (jsid * Value).
Variable postCheck : Args -> Collector Value -> option string.

Local Notation "'World'" := (Collector.World Args Value).
Local Notation "'handle_event'" := (_handle filter handle postCheck).
Local Notation "'collect'" := (collect_event filter handle).
Local Notation "'sound' t0 opts w" :=
  (consistent opts w /\ armed t0 opts w /\ tracked (env w))
  (at level 10, t0 at level 9, opts at level 9, w at level 9).

Lemma stop_tracked_but (i : nat) (reason : option string) (w : World) :
  map timer_id (scheduled (env w)) = set_delete i (_timeouts (env w)) ->
  map timer_id (scheduled (env (stop reason w)))
  = set_delete i (_timeouts (env (stop reason w))).
Proof.
  intro H. unfold stop. destruct (ended (self w)); [assumption|]. simpl.
  destruct (_timeout (self w)) as [a|], (_idletimeout (self w)) as [b|];
    repeat apply tracked_but_clear; assumption.
Qed.

Lemma stop_tracked (reason : option string) (w : World) :
  tracked (env w) -> tracked (env (stop reason w)).
Proof.
  intro H. unfold stop. destruct (ended (self w)); [assumption|]. simpl.
  destruct (_timeout (self w)) as [a|], (_idletimeout (self w)) as [b|];
    repeat apply tracked_clear; assumption.
Qed.

Lemma sound_stop (t0 : nat) (opts : CollectorOptions) (w : World)
    (reason : option string) :
  sound t0 opts w -> sound t0 opts (stop reason w).
Proof.
  intros [C [A T]]. split; [now apply Lifecycle.consistent_stop|].
  split; [|now apply stop_tracked].
  unfold stop. destruct (ended (self w)) eqn:E; [assumption|].
  constructor; simpl.
  - discriminate.
  - discriminate.
  - reflexivity.
Qed.

Lemma sound_collect (t0 : nat) (opts : CollectorOptions) (w : World) (args : Args) :
  sound t0 opts w -> sound t0 opts (collect args w).
Proof.
  intros [C [A T]]. split; [now apply Lifecycle.consistent_collect|].
  unfold collect_event.
  destruct (handle args (self w)) as [[key value]|]; [|now split].
  destruct (filter args (collected (self w))); [|now split].
  destruct A as [A1 A2 A3].
  destruct (_idletimeout (self w)) as [t|] eqn:I; simpl.
  - split.
    + constructor; simpl.
      * intros E G. destruct (A1 E G) as [tm [Hin [Hid Hdue]]].
        exists tm. split; [|now split].
        apply in_or_app. left. unfold without. apply filter_In. split; [assumption|].
        apply negb_true_iff, Nat.eqb_neq. intro Eq.
        apply (A2 (timer_id tm) t Hid eq_refl). exact Eq.
      * intros a b Ha Hb. inversion Hb. subst b.
        pose proof (handles_known C (or_introl Ha)). lia.
      * intro G. specialize (A3 G). discriminate.
    + unfold tracked. simpl. rewrite map_app, ids_without. simpl.
      unfold tracked in T. now rewrite T.
  - split; [|assumption].
    constructor; simpl; [assumption | discriminate | reflexivity].
Qed.

Lemma sound_handle (t0 : nat) (opts : CollectorOptions) (w : World) (args : Args) :
  sound t0 opts w -> sound t0 opts (handle_event args w).
Proof.
  intro S. unfold _handle.
  destruct (truthy_reason (postCheck args (self (collect args w)))).
  - apply sound_stop. now apply sound_collect.
  - now apply sound_collect.
Qed.

(** A timer that fires ends the collector: both closures call [stop]. *)
Lemma fire_ends (opts : CollectorOptions) (w : World) (tm : Timer) :
  consistent opts w ->
  ended (self (fire tm w)) = true /\
  _timeout (self (fire tm w)) = None /\ _idletimeout (self (fire tm w)) = None.
Proof.
  intro C. unfold fire. destruct (callback tm) as [reason]. simpl.
  unfold stop. simpl. destruct (ended (self w)) eqn:E; simpl.
  - destruct (ended_no_timer C E) as [H1 H2]. now repeat split.
  - now repeat split.
Qed.

Lemma sound_fire (t0 : nat) (opts : CollectorOptions) (w : World) (tm : Timer) :
  sound t0 opts w -> sound t0 opts (fire tm w).
Proof.
  intros [C [A T]]. split; [now apply Lifecycle.consistent_fire|].
  destruct (fire_ends opts w tm C) as [E [H1 H2]].
  split.
  - constructor.
    + rewrite E. discriminate.
    + rewrite H1. discriminate.
    + intros _. exact H2.
  - unfold fire. destruct (callback tm) as [reason]. unfold tracked. simpl.
    apply stop_tracked_but. simpl. unfold tracked in T. now rewrite ids_without, T.
Qed.

Lemma sound_set_now (t0 : nat) (opts : CollectorOptions) (w : World) (t : nat) :
  sound t0 opts w -> sound t0 opts (set_now t w).
Proof.
  intros [C [[A1 A2 A3] T]]. split; [now apply Lifecycle.consistent_set_now|].
  split; [|exact T]. constructor; assumption.
Qed.

Lemma sound_advance (t0 : nat) (opts : CollectorOptions) (fuel t : nat) (w : World) :
  sound t0 opts w -> sound t0 opts (advance_fuel fuel t w).
Proof.
  revert w. induction fuel as [|n IH]; intros w S; simpl.
  - now apply sound_set_now.
  - destruct (earliest (scheduled (env w))) as [tm|]; [|now apply sound_set_now].
    destruct (due tm <=? t); [|now apply sound_set_now].
    apply IH. now apply sound_fire.
Qed.

Lemma sound_new (t0 : nat) (opts : CollectorOptions) :
  sound t0 opts (new_Collector Args Value (fresh_env t0) opts).
Proof.
  split; [apply Lifecycle.consistent_new|].
  unfold new_Collector, tracked.
  destruct (given (time opts)) eqn:Tm, (given (idle opts)) eqn:Id; simpl;
    (split; [constructor; simpl | reflexivity]);
    try discriminate; try reflexivity;
    try (intros a b Ha Hb; inversion Ha; inversion Hb; lia);
    try (intros _ _; eexists; split; [left; reflexivity | split; reflexivity]);
    try (intros; congruence).
Qed.

Lemma sound_started (t0 : nat) (opts : CollectorOptions) (ops : list (Op Args)) :
  sound t0 opts (started filter handle postCheck t0 opts ops).
Proof.
  unfold started. generalize (sound_new t0 opts).
  generalize (new_Collector Args Value (fresh_env t0) opts).
  induction ops as [|op rest IH]; intros w S; simpl; [assumption|].
  apply IH. destruct op; simpl.
  - now apply sound_stop.
  - now apply sound_handle.
  - now apply sound_advance.
Qed.

(** ** Properties *)

(** X5. The client's [_timeouts] set lists exactly the timeouts that are
    still scheduled, whatever the collector went through: a timeout that
    fired or was cleared has left the set. *)
Theorem timeouts_tracked (t0 : nat) (opts : CollectorOptions) (ops : list (Op Args)) :
  _timeouts (env (started filter handle postCheck t0 opts ops))
  = map timer_id (scheduled (env (started filter handle postCheck t0 opts ops))).
Proof.
  destruct (sound_started t0 opts ops) as [_ [_ T]]. symmetry. exact T.
Qed.


(** X7. The time option is a hard limit: a collector created at [t0]
    with a time option has ended once the clock has reached [t0] plus
    that time, whatever was delivered to it in between. *)
Theorem time_is_a_deadline (t0 : nat) (opts : CollectorOptions) (ops : list (Op Args))
    (t : nat) :
  given (time opts) = true ->
  t0 + delay_of (time opts) <= t ->
  ended (self (advance_to t (started filter handle postCheck t0 opts ops))) = true.
Proof.
  intros G Ht.
  pose proof (sound_started t0 opts ops) as S.
  apply (sound_advance t0 opts
           (List.length (scheduled (env (started filter handle postCheck t0 opts ops)))) t)
    in S.
  fold (advance_to t (started filter handle postCheck t0 opts ops)) in S.
  destruct S as [_ [[A1 _ _] _]].
  destruct (ended (self (advance_to t (started filter handle postCheck t0 opts ops))))
    eqn:E; [reflexivity|].
  destruct (A1 eq_refl G) as [tm [Hin [_ Hdue]]].
  apply Lifecycle.advance_to_complete in Hin.
  pose proof (Lifecycle.platform_delay_le _ (Lifecycle.given_delay _ G)). lia.
Qed.

(** X8. A collector with neither a time nor an idle option schedules
    nothing: the clock alone never ends it and never makes it emit. *)
Theorem no_limit_no_timer (t0 : nat) (opts : CollectorOptions) (ops : list (Op Args))
    (w : World) :
  w = started filter handle postCheck t0 opts ops ->
  given (time opts) = false ->
  given (idle opts) = false ->
  scheduled (env w) = [] /\
  forall t, self (advance_to t w) = self w /\ emitted (advance_to t w) = emitted w.
Proof.
  intros -> Gt Gi. destruct (sound_started t0 opts ops) as [C [[_ _ A3] _]].
  set (w := started filter handle postCheck t0 opts ops) in *.
  assert (scheduled (env w) = []) as Hnone.
  { destruct (scheduled (env w)) as [|tm rest] eqn:S; [reflexivity|]. exfalso.
    destruct (timers_owned C tm) as [H|H].
    - rewrite S. now left.
    - rewrite (no_time_timer C Gt) in H. discriminate.
    - rewrite (A3 Gi) in H. discriminate. }
  split; [assumption|].
  intro t. unfold advance_to. rewrite Hnone. simpl. now split.
Qed.

(** X9. [_handle] does not look at [ended]: an event delivered to a
    collector that has ended, and that [handle] and the filter accept,
    is still stored and announced with 'collect'; but no timer is set
    again and no second 'end' is emitted. *)
Theorem collects_after_end (t0 : nat) (opts : CollectorOptions) (ops : list (Op Args))
    (w : World) (args : Args) (key : jsid) (value : Value) :
  w = started filter handle postCheck t0 opts ops ->
  ended (self w) = true ->
  handle args (self w) = Some (key, value) ->
  filter args (collected (self w)) = true ->
  collected (self (handle_event args w)) = map_set key value (collected (self w)) /\
  emitted (handle_event args w)
  = emitted w ++ [Collect Args value; FullCollect Value args] /\
  ended (self (handle_event args w)) = true /\
  scheduled (env (handle_event args w)) = [].
Proof.
  intros -> E Hh Hf. pose proof (Lifecycle.consistent_started _ _ filter handle postCheck t0 opts ops) as C.
  set (w := started filter handle postCheck t0 opts ops) in *.
  destruct (ended_no_timer C E) as [H1 H2].
  pose proof (Lifecycle.ended_nothing_scheduled _ _ opts w C E) as Hs.
  assert (forall r, stop r (collect args w) = collect args w) as Hstop.
  { intro r. unfold stop, collect_event. rewrite Hh, Hf, H2. simpl. now rewrite E. }
  assert (handle_event args w = collect args w) as ->.
  { unfold _handle.
    destruct (truthy_reason (postCheck args (self (collect args w)))); [apply Hstop | reflexivity]. }
  unfold collect_event. rewrite Hh, Hf, H2. simpl. now repeat split.
Qed.

End Hooks.


Lemma time_is_a_deadline_witness :
  given (time {| time := Some 50; idle := Some 20 |}) = true /\
  0 + delay_of (time {| time := Some 50; idle := Some 20 |}) <= 50 /\
  ended (self (advance_to 50
                 (started accept_all keep_event never_done 0
                    {| time := Some 50; idle := Some 20 |}
                    [Advance nat 15; Deliver 1; Advance nat 30; Deliver 2;
                     Advance nat 45; Deliver 3]))) = true.
Proof.
  split; [reflexivity|]. split; [simpl; lia|].
  apply (time_is_a_deadline nat nat accept_all keep_event never_done 0
           {| time := Some 50; idle := Some 20 |}
           [Advance nat 15; Deliver 1; Advance nat 30; Deliver 2;
            Advance nat 45; Deliver 3] 50); [reflexivity | simpl; lia].
Defined.

Lemma no_limit_no_timer_witness :
  started accept_all keep_event never_done 0 {| time := None; idle := Some 0 |}
          [Deliver 1]
  = started accept_all keep_event never_done 0 {| time := None; idle := Some 0 |}
            [Deliver 1]
  /\ given (time {| time := None; idle := Some 0 |}) = false
  /\ given (idle {| time := None; idle := Some 0 |}) = false
  /\ ended (self (advance_to 1000
                    (started accept_all keep_event never_done 0
                       {| time := None; idle := Some 0 |} [Deliver 1]))) = false.
Proof.
  split; [reflexivity|]. split; [reflexivity|]. split; [reflexivity|].
  destruct (no_limit_no_timer nat nat accept_all keep_event never_done 0
              {| time := None; idle := Some 0 |} [Deliver 1] _
              eq_refl eq_refl eq_refl) as [_ H].
  destruct (H 1000) as [Hself _]. rewrite Hself. reflexivity.
Defined.

Lemma collects_after_end_witness :
  ended (self (started accept_all keep_event never_done 0 idle_100 [CallStop nat None]))
    = true /\
  emitted (_handle accept_all keep_event never_done 7
             (started accept_all keep_event never_done 0 idle_100 [CallStop nat None]))
  = [End nat [] "user"; Collect nat 7; FullCollect nat 7].
Proof.
  split; [reflexivity|].
  destruct (collects_after_end nat nat accept_all keep_event never_done 0 idle_100
              [CallStop nat None] _ 7 (Str "k") 7
              eq_refl eq_refl eq_refl eq_refl) as [_ [H _]].
  exact H.
Defined.

(** ** Intervals *)

Lemma ids_filter_interval (i : nat) (l : list Interval) :
  map interval_id (List.filter (fun x => negb (interval_id x =? i)) l)
  = set_delete i (map interval_id l).
Proof.
  unfold set_delete. induction l as [|x rest IH]; simpl; [reflexivity|].
  destruct (interval_id x =? i); simpl; now rewrite IH.
Qed.

Lemma intervals_tracked_run (ops : list HostOp) (h : Host) :
  tracked (timeouts h) /\ intervals_tracked h ->
  tracked (timeouts (host_run ops h)) /\ intervals_tracked (host_run ops h).
Proof.
  revert h. induction ops as [|op rest IH]; intros h [T I]; simpl; [now split|].
  apply IH. destruct op; simpl; split; try assumption.
  - now apply tracked_set.
  - now apply tracked_clear.
  - unfold intervals_tracked in *. simpl. now rewrite map_app, I.
  - unfold intervals_tracked in *. simpl. now rewrite ids_filter_interval, I.
Qed.

Lemma clear_all_intervals (ids : list nat) (q : list Interval) :
  (forall i, In i q -> In (interval_id i) ids) ->
  fold_left (fun q i => List.filter (fun x => negb (interval_id x =? i)) q) ids q = [].
Proof.
  revert q. induction ids as [|a rest IH]; intros q H; simpl.
  - destruct q as [|i q']; [reflexivity|]. destruct (H i (or_introl eq_refl)).
  - apply IH. intros i Hin. apply filter_In in Hin.
    destruct Hin as [Hin Hne]. apply negb_true_iff, Nat.eqb_neq in Hne.
    destruct (H i Hin) as [E|E]; [congruence | assumption].
Qed.

(** X10. Whatever timeouts and intervals were set and cleared through
    the client, [destroy] leaves none of them scheduled and both sets
    empty. *)
Theorem destroy_clears_everything (t0 : nat) (ops : list HostOp) :
  scheduled (timeouts (destroy (host_run ops (fresh_host t0)))) = [] /\
  _timeouts (timeouts (destroy (host_run ops (fresh_host t0)))) = [] /\
  interval_queue (destroy (host_run ops (fresh_host t0))) = [] /\
  _intervals (destroy (host_run ops (fresh_host t0))) = [].
Proof.
  destruct (intervals_tracked_run ops (fresh_host t0)) as [T I].
  { split; reflexivity. }
  repeat split.
  - simpl. apply clear_all. intros tm Hin. unfold tracked in T. rewrite <- T.
    now apply in_map.
  - simpl. apply clear_all_intervals. intros i Hin. unfold intervals_tracked in I.
    rewrite <- I. now apply in_map.
Qed.

End TimerFacts.

(* ================================================================== *)
(** * How a Collector ends *)
(* ================================================================== *)

Module Termination.

Import Collector Timers.

Section Hooks.

Variables Args Value : Type.
Variable filter : Args -> JsMap Value -> bool.
Variable handle : Args -> Collector Value -> option (jsid * Value).
Variable postCheck : Args -> Collector Value -> option string.

Local Notation "'World'" := (Collector.World Args Value).
Local Notation "'handle_event'" := (_handle filter handle postCheck).
Local Notation "'collect'" := (collect_event filter handle).

(** ** An ended collector stays ended *)






(** ** What is scheduled belongs to the collector *)









(** ** A timeout that falls due *)



(** ** The claim *)


End Hooks.


End Termination.

(* ================================================================== *)
(** * Heartbeat pings *)
(* ================================================================== *)

Module PingFacts.

Import ClientPings.

Local Open Scope Z_scope.

Lemma firstn_app_firstn {X : Type} (n : nat) (l m : list X) :
  firstn n (l ++ firstn n m) = firstn n (l ++ m).
Proof.
  rewrite !firstn_app, firstn_firstn. f_equal. f_equal. lia.
Qed.

Lemma _pong_firstn (now startTime : Z) (pings : list Z) :
  _pong now startTime pings = firstn 3 ((now - startTime) :: pings).
Proof.
  unfold _pong. destruct (Nat.ltb 3 (List.length ((now - startTime) :: pings))) eqn:L;
    [reflexivity|].
  apply Nat.ltb_ge in L. symmetry. now apply firstn_all2.
Qed.

Lemma pong_from (beats : list (Z * Z)) (pings : list Z) :
  fold_left (fun pings b => _pong (fst b) (snd b) pings) beats (firstn 3 pings)
  = firstn 3 (rev (map (fun b => fst b - snd b) beats) ++ pings).
Proof.
  revert pings. induction beats as [|[n s] rest IH]; intro pings.
  - reflexivity.
  - cbn [fold_left fst snd]. rewrite _pong_firstn.
    rewrite (IH ((n - s) :: firstn 3 pings)).
    cbn [map rev fst snd]. rewrite <- app_assoc.
    change ([n - s] ++ pings) with ((n - s) :: pings).
    change ((n - s) :: firstn 3 pings) with ([n - s] ++ firstn 3 pings).
    change ((n - s) :: pings) with ([n - s] ++ pings).
    rewrite !app_assoc. apply firstn_app_firstn.
Qed.

(** X11. After any series of heartbeats, [pings] holds the latencies of
    the last three, the most recent first, and never more than three. *)
Theorem pings_keep_latest_three (beats : list (Z * Z)) :
  pong_all beats = firstn 3 (rev (map (fun b => fst b - snd b) beats)) /\
  (List.length (pong_all beats) <= 3)%nat.
Proof.
  assert (pong_all beats = firstn 3 (rev (map (fun b => fst b - snd b) beats))) as H.
  { unfold pong_all. change (@nil Z) with (firstn 3 (@nil Z)).
    rewrite pong_from. now rewrite app_nil_r. }
  split; [exact H|]. rewrite H. apply firstn_le_length.
Qed.

End PingFacts.

(* ================================================================== *)
(** * Reactions of a message *)
(* ================================================================== *)

Module ReactionFacts.

Import Reactions.

Local Open Scope Z_scope.

Section MapSize.

Variable V : Type.

Lemma map_delete_set_fresh (m : JsMap V) (k : jsid) (v : V) :
  map_get m k = None -> map_delete k (map_set k v m) = m.
Proof.
  induction m as [|[k' v'] rest IH]; simpl.
  - intros _. now rewrite jsid_eqb_refl.
  - destruct (jsid_eqb k k') eqn:E; [discriminate|].
    intro H. simpl. rewrite E. f_equal. auto.
Qed.

Lemma map_set_fresh_length (m : JsMap V) (k : jsid) (v : V) :
  map_get m k = None -> List.length (map_set k v m) = S (List.length m).
Proof.
  intro H. apply map_get_None in H. rewrite (map_set_fresh V m k v H).
  rewrite length_app. simpl. lia.
Qed.

Lemma map_delete_length (m : JsMap V) (k : jsid) (v : V) :
  map_get m k = Some v -> S (List.length (map_delete k m)) = List.length m.
Proof.
  induction m as [|[k' v'] rest IH]; simpl; [discriminate|].
  destruct (jsid_eqb k k'); [reflexivity|].
  intro H. simpl. f_equal. auto.
Qed.

End MapSize.

Lemma reaction_eta (r : MessageReaction) :
  {| reaction_emoji := reaction_emoji r; count := count r; me := me r;
     users := users r |} = r.
Proof. now destruct r. Qed.

(** X12. Adding the reaction of a user who has already reacted changes
    nothing: a second [_addReaction] with the same emoji and user
    returns the same reaction and leaves the reactions as the first left
    them, so the count is not raised twice. *)
Theorem add_reaction_idempotent (self : string)
    (reactions : JsMap MessageReaction) (emoji : ReactionEmoji) (user : User) :
  _addReaction self (fst (_addReaction self reactions emoji user)) emoji user
  = _addReaction self reactions emoji user.
Proof.
  unfold _addReaction at 2 3.
  set (first :=
    match map_get reactions (emojiID emoji) with
    | Some r =>
        if negb (me r)
        then {| reaction_emoji := reaction_emoji r; count := count r;
                me := String.eqb (user_id user) self; users := users r |}
        else r
    | None => new_MessageReaction emoji 0 (String.eqb (user_id user) self)
    end).
  set (stored :=
    match map_get (users first) (Str (user_id user)) with
    | Some _ => first
    | None =>
        {| reaction_emoji := reaction_emoji first; count := count first + 1;
           me := me first;
           users := map_set (Str (user_id user)) user (users first) |}
    end).
  simpl.
  assert (me stored = true \/ me stored = String.eqb (user_id user) self) as Hme.
  { assert (me stored = me first) as -> by
        (unfold stored; destruct (map_get (users first) (Str (user_id user))); reflexivity).
    unfold first. destruct (map_get reactions (emojiID emoji)) as [r|]; simpl.
    - destruct (me r) eqn:M; simpl; [left; exact M | now right].
    - now right. }
  assert (exists u, map_get (users stored) (Str (user_id user)) = Some u) as [u Hu].
  { unfold stored. destruct (map_get (users first) (Str (user_id user))) as [u|] eqn:G.
    - now exists u.
    - exists user. simpl. apply map_get_set_same. }
  unfold _addReaction. rewrite map_get_set_same.
  assert ((if negb (me stored)
           then {| reaction_emoji := reaction_emoji stored; count := count stored;
                   me := String.eqb (user_id user) self; users := users stored |}
           else stored) = stored) as ->.
  { destruct (me stored) eqn:M; simpl; [reflexivity|].
    destruct Hme as [H|H]; [discriminate|]. rewrite <- H.
    rewrite <- M. apply reaction_eta. }
  rewrite Hu. now rewrite map_set_twice.
Qed.

(** X13. A reaction's count and the users it knows move together: an
    [_addReaction] leaves the difference between [count] and the number
    of known users as it was (0 for a new reaction), and so does a
    [_removeReaction] of a user it knows. *)
Theorem count_follows_users (self : string) (reactions : JsMap MessageReaction)
    (emoji : ReactionEmoji) (user : User) :
  count (snd (_addReaction self reactions emoji user))
  - known (snd (_addReaction self reactions emoji user))
  = match map_get reactions (emojiID emoji) with
    | Some r => count r - known r
    | None => 0
    end
  /\
  forall r u, map_get reactions (emojiID emoji) = Some r ->
              map_get (users r) (Str (user_id user)) = Some u ->
              exists r', snd (_removeReaction self reactions emoji (Some user)) = Some r' /\
                         count r' - known r' = count r - known r.
Proof.
  split.
  - unfold _addReaction. simpl.
    destruct (map_get reactions (emojiID emoji)) as [r|].
    + assert (forall x : MessageReaction,
                count x = count r -> users x = users r ->
                count (match map_get (users x) (Str (user_id user)) with
                       | Some _ => x
                       | None =>
                           {| reaction_emoji := reaction_emoji x; count := count x + 1;
                              me := me x;
                              users := map_set (Str (user_id user)) user (users x) |}
                       end)
                - known (match map_get (users x) (Str (user_id user)) with
                         | Some _ => x
                         | None =>
                             {| reaction_emoji := reaction_emoji x; count := count x + 1;
                                me := me x;
                                users := map_set (Str (user_id user)) user (users x) |}
                         end)
                = count r - known r) as H.
      { intros x Hc Hu. unfold known.
        destruct (map_get (users x) (Str (user_id user))) eqn:G.
        - now rewrite Hc, Hu.
        - simpl. rewrite (map_set_fresh_length _ _ _ _ G), Hc, Hu. lia. }
      destruct (negb (me r)); apply H; reflexivity.
    + simpl. unfold known. simpl. lia.
  - intros r u Hr Hu. unfold _removeReaction. rewrite Hr, Hu.
    pose proof (map_delete_length _ _ _ _ Hu) as Hlen.
    match goal with
    | |- context [if ?c then _ else _] => destruct c
    end; simpl; eexists; (split; [reflexivity|]); unfold known; simpl; lia.
Qed.

Lemma count_follows_users_witness :
  map_get [(Str "x", {| reaction_emoji := {| emoji_id := Null; emoji_name := "x" |};
                        count := 5; me := false;
                        users := [(Str "u", {| user_id := "u" |})] |})]
          (emojiID {| emoji_id := Null; emoji_name := "x" |})
  = Some {| reaction_emoji := {| emoji_id := Null; emoji_name := "x" |};
            count := 5; me := false; users := [(Str "u", {| user_id := "u" |})] |}
  /\ exists r',
       snd (_removeReaction "me"
              [(Str "x", {| reaction_emoji := {| emoji_id := Null; emoji_name := "x" |};
                            count := 5; me := false;
                            users := [(Str "u", {| user_id := "u" |})] |})]
              {| emoji_id := Null; emoji_name := "x" |} (Some {| user_id := "u" |}))
       = Some r' /\
       count r' - known r' = 5 - 1.
Proof.
  split; [reflexivity|].
  apply (proj2 (count_follows_users "me"
                  [(Str "x", {| reaction_emoji := {| emoji_id := Null; emoji_name := "x" |};
                                count := 5; me := false;
                                users := [(Str "u", {| user_id := "u" |})] |})]
                  {| emoji_id := Null; emoji_name := "x" |} {| user_id := "u" |})
           {| reaction_emoji := {| emoji_id := Null; emoji_name := "x" |};
              count := 5; me := false; users := [(Str "u", {| user_id := "u" |})] |}
           {| user_id := "u" |}); reflexivity.
Defined.

(** X14. A reaction added and taken back leaves no trace: when the
    message has no reaction with the emoji, [_addReaction] followed by
    [_removeReaction] of the same user gives back the reactions as they
    were; when it has one with a positive count that does not know the
    user, who is not the client's own user, the same holds. *)
Theorem reaction_round_trip (self : string) (reactions : JsMap MessageReaction)
    (emoji : ReactionEmoji) (user : User) :
  (map_get reactions (emojiID emoji) = None ->
   fst (_removeReaction self (fst (_addReaction self reactions emoji user))
          emoji (Some user)) = reactions) /\
  (forall r, map_get reactions (emojiID emoji) = Some r ->
             map_get (users r) (Str (user_id user)) = None ->
             1 <= count r ->
             String.eqb (user_id user) self = false ->
             fst (_removeReaction self (fst (_addReaction self reactions emoji user))
                    emoji (Some user)) = reactions).
Proof.
  split.
  - intro Hnone. unfold _addReaction. rewrite Hnone. simpl.
    unfold _removeReaction. rewrite map_get_set_same. simpl.
    rewrite String.eqb_refl. simpl. now apply map_delete_set_fresh.
  - intros r Hr Hu Hc Hself. unfold _addReaction. rewrite Hr. simpl.
    assert ((if negb (me r)
             then {| reaction_emoji := reaction_emoji r; count := count r;
                     me := String.eqb (user_id user) self; users := users r |}
             else r) = r) as ->.
    { destruct (me r) eqn:M; simpl; [reflexivity|]. rewrite Hself, <- M.
      apply reaction_eta. }
    rewrite Hu. unfold _removeReaction. rewrite map_get_set_same. simpl.
    rewrite map_get_set_same, Hself.
    rewrite (map_delete_set_fresh _ _ _ _ Hu).
    replace (count r + 1 - 1) with (count r) by lia.
    destruct (count r <=? 0) eqn:L; [apply Z.leb_le in L; lia|]. simpl.
    rewrite reaction_eta.
    assert (forall (m : JsMap MessageReaction) k (a b : MessageReaction),
              map_set k b (map_set k a m) = map_set k b m) as Hover.
    { intros m k a b. induction m as [|[k' v'] rest IH]; simpl.
      - now rewrite jsid_eqb_refl.
      - destruct (jsid_eqb k k') eqn:E; simpl; [now rewrite jsid_eqb_refl|].
        rewrite E. now rewrite IH. }
    rewrite Hover. now apply map_set_same_value.
Qed.

Lemma reaction_round_trip_witness :
  map_get (@nil (jsid * MessageReaction))
          (emojiID {| emoji_id := Str "9"; emoji_name := "blob" |}) = None /\
  fst (_removeReaction "me"
         (fst (_addReaction "me" [] {| emoji_id := Str "9"; emoji_name := "blob" |}
                 {| user_id := "me" |}))
         {| emoji_id := Str "9"; emoji_name := "blob" |} (Some {| user_id := "me" |}))
  = [].
Proof.
  split; [reflexivity|].
  apply (proj1 (reaction_round_trip "me" [] {| emoji_id := Str "9"; emoji_name := "blob" |}
                  {| user_id := "me" |})).
  reflexivity.
Defined.

End ReactionFacts.

(* ================================================================== *)
(** * BitField: bits, flags and arrays of flags *)
(* ================================================================== *)

Module BitFieldFacts.

Import BitField.

Local Open Scope Z_scope.

(** ** 32-bit arithmetic *)

Lemma pow32 : 2 ^ 32 = 4294967296.
Proof. reflexivity. Qed.

Lemma pow31 : 2 ^ 31 = 2147483648.
Proof. reflexivity. Qed.

Lemma u32_range (z : Z) : 0 <= u32 z < 2 ^ 32.
Proof. unfold u32. apply Z.mod_pos_bound. reflexivity. Qed.

Lemma u32_ones (z : Z) : u32 z = Z.land z (Z.ones 32).
Proof. unfold u32. symmetry. apply Z.land_ones. lia. Qed.

Lemma u32_small (z : Z) : 0 <= z < 2 ^ 32 -> u32 z = z.
Proof. unfold u32. apply Z.mod_small. Qed.

Lemma u32_s32 (u : Z) : 0 <= u < 2 ^ 32 -> u32 (s32 u) = u.
Proof.
  intro H. unfold s32, u32. destruct (u <? 2 ^ 31).
  - now apply Z.mod_small.
  - replace (u - 2 ^ 32) with (u + (-1) * 2 ^ 32) by lia.
    rewrite Z_mod_plus_full. now apply Z.mod_small.
Qed.

Lemma s32_small (u : Z) : 0 <= u < 2 ^ 31 -> s32 u = u.
Proof.
  intro H. unfold s32. destruct (u <? 2 ^ 31) eqn:L; [reflexivity|].
  apply Z.ltb_ge in L. lia.
Qed.

Lemma s32_below (u : Z) : 0 <= u < 2 ^ 32 -> - 2 ^ 31 <= s32 u < 2 ^ 31.
Proof.
  intro H. unfold s32. rewrite pow32, pow31 in *.
  destruct (u <? 2147483648) eqn:L;
    [apply Z.ltb_lt in L | apply Z.ltb_ge in L]; lia.
Qed.

Lemma s32_zero (u : Z) : 0 <= u < 2 ^ 32 -> s32 u = 0 -> u = 0.
Proof.
  intros H E. rewrite <- (u32_s32 u H), E. reflexivity.
Qed.

(** Identities of [land], [lor] and [lnot], bit by bit. *)
Ltac bitwise :=
  apply Z.bits_inj'; intros ?n ?Hn;
  repeat (rewrite ?Z.land_spec, ?Z.lor_spec, ?Z.lnot_spec, ?Z.bits_0 by assumption);
  repeat match goal with
         | |- context [Z.testbit ?a ?n] =>
             let b := fresh "b" in
             destruct (Z.testbit a n) eqn:b
         end;
  try reflexivity.

Lemma land_lor_split (T S V : Z) :
  Z.land T (Z.lor S V) = Z.lor S V -> Z.land T S = S /\ Z.land T V = V.
Proof.
  intro H. split.
  - assert (Z.land T S = Z.land (Z.land T (Z.lor S V)) S) as -> by bitwise.
    rewrite H. bitwise.
  - assert (Z.land T V = Z.land (Z.land T (Z.lor S V)) V) as -> by bitwise.
    rewrite H. bitwise.
Qed.

Lemma land_u32 (a b : Z) : Z.land (u32 a) (u32 b) = u32 (Z.land a b).
Proof. rewrite !u32_ones. bitwise. Qed.

Lemma lor_u32 (a b : Z) : Z.lor (u32 a) (u32 b) = u32 (Z.lor a b).
Proof. rewrite !u32_ones. bitwise. Qed.

Lemma u32_band (a b : Z) : u32 (band a b) = Z.land (u32 a) (u32 b).
Proof. unfold band. apply u32_s32. rewrite land_u32. apply u32_range. Qed.

Lemma u32_bor (a b : Z) : u32 (bor a b) = Z.lor (u32 a) (u32 b).
Proof. unfold bor. apply u32_s32. rewrite lor_u32. apply u32_range. Qed.

Lemma u32_bnot (a : Z) : u32 (bnot a) = Z.land (Z.lnot (u32 a)) (Z.ones 32).
Proof.
  rewrite <- u32_ones. unfold bnot, to_int32, s32, u32.
  destruct (a mod 2 ^ 32 <? 2 ^ 31); [reflexivity|].
  unfold Z.lnot.
  replace (Z.pred (- (a mod 2 ^ 32 - 2 ^ 32)))
    with (Z.pred (- (a mod 2 ^ 32)) + 1 * 2 ^ 32) by lia.
  apply Z_mod_plus_full.
Qed.

Lemma covers_bor_r (t v : Z) : Z.land (u32 (bor t v)) (u32 v) = u32 v.
Proof. rewrite u32_bor. bitwise. Qed.

Lemma covers_bor_l (t x v : Z) :
  Z.land (u32 t) (u32 v) = u32 v -> Z.land (u32 (bor t x)) (u32 v) = u32 v.
Proof.
  intro H. rewrite u32_bor. rewrite <- H at 2. rewrite <- H at 1. bitwise.
Qed.

Section Flags.

Variable FLAGS : list (string * Z).

Local Notation "'resolve'" := (BitField.resolve FLAGS).
Local Notation "'has'" := (BitField.has FLAGS).
Local Notation "'total_of'" := (BitField.total_of FLAGS).

(** What the loop of [add] and [remove] has gathered holds every bit of
    every argument, and of the value it started from. *)
Lemma total_covers (bits : list Resolvable) (start total : Z) :
  total_of bits start = Returned total ->
  Z.land (u32 total) (u32 start) = u32 start /\
  forall b v, In b bits -> resolve b = Returned v ->
              Z.land (u32 total) (u32 v) = u32 v.
Proof.
  revert start. induction bits as [|bit rest IH]; intros start H; simpl in H.
  - injection H as <-. split; [bitwise | intros b v []].
  - destruct (resolve bit) as [v0|] eqn:R; [|discriminate].
    destruct (IH _ H) as [Hstart Hrest]. rewrite u32_bor in Hstart.
    destruct (land_lor_split _ _ _ Hstart) as [HS HV]. split; [exact HS|].
    intros b v [<-|Hin] Hb.
    + rewrite R in Hb. injection Hb as <-. exact HV.
    + exact (Hrest b v Hin Hb).
Qed.

Lemma has_scalar (this : Z) (b : Resolvable) :
  is_array b = false ->
  has this b = match resolve b with
               | Returned v => Returned (band this v =? v)
               | Thrown err => Thrown err
               end.
Proof. destruct b; try discriminate; reflexivity. Qed.

Lemma band_covered (x t v : Z) :
  Z.land (u32 t) (u32 v) = u32 v -> 0 <= v < 2 ^ 31 -> band (bor x t) v = v.
Proof.
  intros H Hv. unfold band. rewrite u32_bor.
  assert (Z.land (Z.lor (u32 x) (u32 t)) (u32 v)
          = Z.lor (Z.land (u32 x) (u32 v)) (Z.land (u32 t) (u32 v))) as -> by bitwise.
  rewrite H.
  assert (Z.lor (Z.land (u32 x) (u32 v)) (u32 v) = u32 v) as -> by bitwise.
  rewrite u32_small by (rewrite pow32; rewrite pow31 in Hv; lia).
  now apply s32_small.
Qed.

Lemma band_bnot_covered (x t v : Z) :
  Z.land (u32 t) (u32 v) = u32 v -> band (band x (bnot t)) v = 0.
Proof.
  intro H. unfold band at 1. rewrite u32_band, u32_bnot. rewrite <- H.
  assert (Z.land (Z.land (u32 x) (Z.land (Z.lnot (u32 t)) (Z.ones 32)))
                 (Z.land (u32 t) (u32 v)) = 0) as -> by bitwise.
  reflexivity.
Qed.

Lemma add_result (this this' r : Instance) (bits : list Resolvable) :
  add FLAGS this bits = Returned (this', r) ->
  exists total, total_of bits 0 = Returned total /\
                bitfield r = bor (bitfield this) total /\
                (frozen this = false -> this' = r) /\
                (frozen this = true -> this' = this).
Proof.
  unfold add. destruct (total_of bits 0) as [total|]; [|discriminate].
  destruct (frozen this) eqn:F.
  - unfold new_BitField. simpl.
    destruct (0 <=? bor (bitfield this) total); [|discriminate].
    intro H. injection H as <- <-. exists total. repeat split; auto; discriminate.
  - intro H. injection H as <- <-. exists total. repeat split; auto; discriminate.
Qed.

Lemma remove_result (this this' r : Instance) (bits : list Resolvable) :
  remove FLAGS this bits = Returned (this', r) ->
  exists total, total_of bits 0 = Returned total /\
                bitfield r = band (bitfield this) (bnot total) /\
                (frozen this = false -> this' = r) /\
                (frozen this = true -> this' = this).
Proof.
  unfold remove. destruct (total_of bits 0) as [total|]; [|discriminate].
  destruct (frozen this) eqn:F.
  - unfold new_BitField. simpl.
    destruct (0 <=? band (bitfield this) (bnot total)); [|discriminate].
    intro H. injection H as <- <-. exists total. repeat split; auto; discriminate.
  - intro H. injection H as <- <-. exists total. repeat split; auto; discriminate.
Qed.

(** ** Properties *)

(** X15. After [add], the bitfield returned has each added bit: [has]
    answers true for every argument that is not an array and resolves
    to a number from 0 to 2^31 - 1. A frozen instance is left as it
    was and a new one is returned. *)
Theorem added_bits_are_had (this this' r : Instance) (bits : list Resolvable) :
  add FLAGS this bits = Returned (this', r) ->
  (forall b v, In b bits -> is_array b = false -> resolve b = Returned v ->
               0 <= v < 2 ^ 31 -> has (bitfield r) b = Returned true) /\
  (frozen this = true -> this' = this) /\
  (frozen this = false -> this' = r).
Proof.
  intro H. destruct (add_result _ _ _ _ H) as [total [Ht [Hr [Hu Hf]]]].
  split; [|now split].
  intros b v Hin Hb Hres Hv. rewrite (has_scalar _ _ Hb), Hres, Hr.
  destruct (total_covers bits 0 total Ht) as [_ Hc].
  rewrite (band_covered _ _ _ (Hc b v Hin Hres) Hv). now rewrite Z.eqb_refl.
Qed.

(** X16. After [remove], the bitfield returned has no bit of what was
    removed: [any] answers false for every argument, arrays included. *)
Theorem removed_bits_are_gone (this this' r : Instance) (bits : list Resolvable) :
  remove FLAGS this bits = Returned (this', r) ->
  forall b v, In b bits -> resolve b = Returned v ->
              any FLAGS (bitfield r) b = Returned false.
Proof.
  intros H b v Hin Hres.
  destruct (remove_result _ _ _ _ H) as [total [Ht [Hr _]]].
  destruct (total_covers bits 0 total Ht) as [_ Hc].
  unfold any. rewrite Hres, Hr. rewrite (band_bnot_covered _ _ _ (Hc b v Hin Hres)).
  reflexivity.
Qed.

(** X17. [has] compares the signed result of [&] with the number it was
    given, so it never reports a bit given as a number of 2^31 or
    more, whatever the bitfield holds. *)
Theorem has_blind_from_bit_31 (this : Z) (b : Resolvable) (v : Z) :
  is_array b = false -> resolve b = Returned v -> 2 ^ 31 <= v ->
  has this b = Returned false.
Proof.
  intros Hb Hres Hv. rewrite (has_scalar _ _ Hb), Hres. f_equal.
  apply Z.eqb_neq. unfold band.
  pose proof (s32_below (Z.land (u32 this) (u32 v))) as H.
  rewrite land_u32 in *. specialize (H (u32_range _)). lia.
Qed.

(** X18. For an array of bits, [missing] returns the empty array
    exactly when [has] answers true; what it returns are elements of
    the array that [has] rejects. *)
Theorem missing_empty_iff_has (this : Z) (l : list Resolvable) :
  (missing FLAGS this (RArray l) = Returned [] <-> has this (RArray l) = Returned true) /\
  (forall m, missing FLAGS this (RArray l) = Returned m ->
             forall x, In x m -> In x l /\ has this x = Returned false).
Proof.
  unfold missing. split.
  - induction l as [|x rest IH].
    + simpl. tauto.
    + change (has this (RArray (x :: rest)))
        with (match has this x with
              | Thrown err => Thrown err
              | Returned false => Returned false
              | Returned true => has this (RArray rest)
              end).
      simpl. destruct (has this x) as [[|]|].
      * simpl. rewrite <- IH.
        destruct (filter_by_has FLAGS negb this rest); tauto.
      * simpl. destruct (filter_by_has FLAGS negb this rest);
          split; intro H; discriminate.
      * split; intro H; discriminate.
  - induction l as [|x rest IH]; simpl; intros m H.
    + injection H as <-. intros y [].
    + destruct (has this x) as [b|] eqn:Hx; [|discriminate].
      destruct (filter_by_has FLAGS negb this rest) as [kept|]; [|discriminate].
      injection H as <-. intros y Hy. destruct b; simpl in Hy.
      * destruct (IH kept eq_refl y Hy). split; [now right | assumption].
      * destruct Hy as [<-|Hy]; [split; [now left | assumption]|].
        destruct (IH kept eq_refl y Hy). split; [now right | assumption].
Qed.

Lemma flag_of_entry (l : list (string * Z)) (name : string) (v : Z) :
  names_distinct (map fst l) = true -> In (name, v) l -> flag name l = Some v.
Proof.
  induction l as [|[k w] rest IH]; simpl; [contradiction|].
  rewrite andb_true_iff, negb_true_iff. intros [Hnot Hd] [H|H].
  - injection H as -> ->. now rewrite String.eqb_refl.
  - destruct (String.eqb name k) eqn:E; [|now apply IH].
    apply String.eqb_eq in E. subst k. exfalso.
    assert (existsb (String.eqb name) (map fst rest) = true) as Hex.
    { apply existsb_exists. exists name. split; [|apply String.eqb_refl].
      change name with (fst (name, v)). now apply in_map. }
    congruence.
Qed.

Lemma serialize_lists (this : Z) (l : list (string * Z)) :
  (forall name v, In (name, v) l ->
     flag name FLAGS = Some v /\ name <> EmptyString /\ 0 <= v) ->
  exists s,
    serialize_from FLAGS this l = Returned s /\
    map fst s = map fst l /\
    filter_by_has FLAGS (fun b => b) this (map RString (map fst l))
    = Returned (map RString (map fst (List.filter snd s))).
Proof.
  induction l as [|[name v] rest IH]; intro H.
  - exists []. now repeat split.
  - destruct IH as [s [Hs [Hn Hf]]].
    { intros n w Hin. apply H. now right. }
    destruct (H name v (or_introl eq_refl)) as [Hflag [Hname Hv]].
    exists ((name, band this v =? v) :: s).
    apply String.eqb_neq in Hname. apply Z.leb_le in Hv.
    cbn [serialize_from map fst filter_by_has]. rewrite Hflag.
    rewrite (has_scalar this (RNumber v) eq_refl).
    rewrite (has_scalar this (RString name) eq_refl).
    cbn [BitField.resolve]. rewrite Hflag, Hname, Hv, Hs, Hf, Hn.
    repeat split. simpl. now destruct (band this v =? v).
Qed.

(** X19. With flags declared once each, under a non-empty name and with
    a number that is not negative, [serialize] and [toArray] both
    return and agree: [serialize] has an entry for each flag, in order,
    and [toArray] lists the names whose entry is true. *)
Theorem toArray_lists_serialized (this : Z) :
  flags_ok FLAGS = true ->
  exists s,
    serialize FLAGS this = Returned s /\
    map fst s = map fst FLAGS /\
    toArray FLAGS this = Returned (map RString (map fst (List.filter snd s))).
Proof.
  unfold flags_ok. rewrite andb_true_iff, forallb_forall. intros [Hd Hall].
  apply serialize_lists. intros name v Hin.
  split; [now apply flag_of_entry|].
  specialize (Hall (name, v) Hin). simpl in Hall.
  apply andb_true_iff in Hall. destruct Hall as [H1 H2].
  apply negb_true_iff, String.eqb_neq in H1. apply Z.leb_le in H2. now split.
Qed.

(** X20. On an instance that is not frozen, adding the same bits a
    second time changes nothing. *)
Theorem add_idempotent (this t1 r1 : Instance) (bits : list Resolvable) :
  frozen this = false ->
  add FLAGS this bits = Returned (t1, r1) ->
  add FLAGS t1 bits = Returned (t1, t1).
Proof.
  intros F H. unfold add in *.
  destruct (total_of bits 0) as [total|]; [|discriminate].
  rewrite F in H. injection H as <- <-. simpl.
  assert (bor (bor (bitfield this) total) total = bor (bitfield this) total) as E.
  { unfold bor at 1. rewrite u32_bor.
    assert (Z.lor (Z.lor (u32 (bitfield this)) (u32 total)) (u32 total)
            = Z.lor (u32 (bitfield this)) (u32 total)) as -> by bitwise.
    reflexivity. }
  now rewrite E.
Qed.

(** X21. On an instance that is not frozen and holds a 32-bit value,
    removing bits that were just added, none of which was set before,
    gives back the bitfield as it was. *)
Theorem remove_undoes_add (this : Instance) (bits : list Resolvable) (total : Z) :
  frozen this = false ->
  to_int32 (bitfield this) = bitfield this ->
  total_of bits 0 = Returned total ->
  band (bitfield this) total = 0 ->
  exists t1,
    add FLAGS this bits = Returned (t1, t1) /\
    remove FLAGS t1 bits = Returned (this, this).
Proof.
  intros F H32 Ht Hfree. unfold add, remove. rewrite Ht, F. simpl.
  eexists. split; [reflexivity|]. simpl.
  assert (band (bor (bitfield this) total) (bnot total) = bitfield this) as E.
  { unfold band. rewrite u32_bor, u32_bnot.
    assert (Z.land (u32 (bitfield this)) (u32 total) = 0) as Hz.
    { apply s32_zero; [|exact Hfree]. rewrite land_u32. apply u32_range. }
    assert (Z.land (Z.lor (u32 (bitfield this)) (u32 total))
                   (Z.land (Z.lnot (u32 total)) (Z.ones 32))
            = Z.land (u32 (bitfield this)) (Z.ones 32)) as ->.
    { apply Z.bits_inj'. intros n Hn.
      pose proof (f_equal (fun z => Z.testbit z n) Hz) as Hb. simpl in Hb.
      rewrite Z.land_spec, Z.bits_0 in Hb.
      rewrite !Z.land_spec, Z.lor_spec, Z.lnot_spec by assumption.
      destruct (Z.testbit (u32 (bitfield this)) n), (Z.testbit (u32 total) n),
        (Z.testbit (Z.ones 32) n); simpl in *; congruence. }
    rewrite <- u32_ones. unfold to_int32 in H32. unfold u32 in *.
    rewrite Z.mod_mod by (rewrite pow32; lia). exact H32. }
  rewrite E. destruct this as [bf fr]. simpl in *. now subst fr.
Qed.

Lemma resolve_array (l : list Resolvable) :
  resolve (RArray l) = match resolve_all FLAGS l with
                       | Thrown err => Thrown err
                       | Returned vs => Returned (fold_left bor vs 0)
                       end.
Proof.
  assert ((fix each (l : list Resolvable) : Completion (list Z) :=
             match l with
             | [] => Returned []
             | p :: rest =>
                 match resolve p with
                 | Thrown err => Thrown err
                 | Returned v =>
                     match each rest with
                     | Thrown err => Thrown err
                     | Returned vs => Returned (v :: vs)
                     end
                 end
             end) l = resolve_all FLAGS l) as H.
  { induction l as [|p rest IH]; [reflexivity|].
    cbn [resolve_all]. rewrite <- IH. reflexivity. }
  cbn [BitField.resolve]. now rewrite H.
Qed.

Lemma total_of_fold (bits : list Resolvable) (start : Z) :
  total_of bits start = match resolve_all FLAGS bits with
                        | Thrown err => Thrown err
                        | Returned vs => Returned (fold_left bor vs start)
                        end.
Proof.
  revert start. induction bits as [|b rest IH]; intro start; [reflexivity|].
  cbn [BitField.total_of resolve_all]. destruct (resolve b) as [v|]; [|reflexivity].
  rewrite IH. now destruct (resolve_all FLAGS rest).
Qed.

Lemma to_int32_bor (a b : Z) : to_int32 (bor a b) = bor a b.
Proof.
  unfold to_int32. rewrite u32_bor. reflexivity.
Qed.

Lemma fold_bor_int32 (vs : list Z) (start : Z) :
  to_int32 start = start -> to_int32 (fold_left bor vs start) = fold_left bor vs start.
Proof.
  revert start. induction vs as [|v rest IH]; intros start H; [exact H|].
  simpl. apply IH. apply to_int32_bor.
Qed.

Lemma bor_0_l (x : Z) : bor 0 x = to_int32 x.
Proof.
  unfold bor, to_int32. reflexivity.
Qed.

(** X22. Passing the bits to [add] or [remove] one by one or as one
    array is the same: the same bitfield results, or the same error. *)
Theorem spread_or_array (this : Instance) (bits : list Resolvable) :
  add FLAGS this bits = add FLAGS this [RArray bits] /\
  remove FLAGS this bits = remove FLAGS this [RArray bits].
Proof.
  assert (total_of bits 0 = total_of [RArray bits] 0) as H.
  { cbn [BitField.total_of]. rewrite resolve_array, total_of_fold.
    destruct (resolve_all FLAGS bits) as [vs|]; [|reflexivity].
    rewrite bor_0_l, fold_bor_int32; reflexivity. }
  unfold add, remove. now rewrite H.
Qed.

End Flags.

Lemma added_bits_are_had_witness :
  add message_flags {| bitfield := 1; frozen := true |}
      [RString "URGENT"; RArray [RNumber 4; RNumber 8]]
  = Returned ({| bitfield := 1; frozen := true |}, {| bitfield := 29; frozen := false |})
  /\ In (RString "URGENT") [RString "URGENT"; RArray [RNumber 4; RNumber 8]]
  /\ is_array (RString "URGENT") = false
  /\ resolve message_flags (RString "URGENT") = Returned 16
  /\ 0 <= 16 < 2 ^ 31
  /\ has message_flags 29 (RString "URGENT") = Returned true.
Proof.
  assert (0 <= 16 < 2 ^ 31) as Hr by (rewrite pow31; lia).
  split; [reflexivity|]. split; [now left|]. split; [reflexivity|].
  split; [reflexivity|]. split; [exact Hr|].
  apply (proj1 (added_bits_are_had message_flags {| bitfield := 1; frozen := true |}
                  {| bitfield := 1; frozen := true |} {| bitfield := 29; frozen := false |}
                  [RString "URGENT"; RArray [RNumber 4; RNumber 8]] eq_refl)
           (RString "URGENT") 16 (or_introl eq_refl) eq_refl eq_refl Hr).
Defined.

Lemma removed_bits_are_gone_witness :
  remove message_flags {| bitfield := 29; frozen := false |}
         [RArray [RNumber 4; RString "URGENT"]]
  = Returned ({| bitfield := 9; frozen := false |}, {| bitfield := 9; frozen := false |})
  /\ resolve message_flags (RArray [RNumber 4; RString "URGENT"]) = Returned 20
  /\ any message_flags 9 (RArray [RNumber 4; RString "URGENT"]) = Returned false.
Proof.
  split; [reflexivity|]. split; [reflexivity|].
  apply (removed_bits_are_gone message_flags {| bitfield := 29; frozen := false |}
           {| bitfield := 9; frozen := false |} {| bitfield := 9; frozen := false |}
           [RArray [RNumber 4; RString "URGENT"]] eq_refl
           (RArray [RNumber 4; RString "URGENT"]) 20 (or_introl eq_refl) eq_refl).
Defined.

Lemma has_blind_from_bit_31_witness :
  is_array (RNumber 2147483648) = false /\
  resolve message_flags (RNumber 2147483648) = Returned 2147483648 /\
  2 ^ 31 <= 2147483648 /\
  any message_flags (-1) (RNumber 2147483648) = Returned true /\
  has message_flags (-1) (RNumber 2147483648) = Returned false.
Proof.
  assert (2 ^ 31 <= 2147483648) as Hv by (rewrite pow31; lia).
  split; [reflexivity|]. split; [reflexivity|]. split; [exact Hv|].
  split; [reflexivity|].
  apply (has_blind_from_bit_31 message_flags (-1) (RNumber 2147483648) 2147483648
           eq_refl eq_refl Hv).
Defined.

Lemma toArray_lists_serialized_witness :
  flags_ok message_flags = true /\
  exists s,
    serialize message_flags 21 = Returned s /\
    map fst s = map fst message_flags /\
    toArray message_flags 21 = Returned (map RString (map fst (List.filter snd s))).
Proof.
  split; [reflexivity|].
  apply (toArray_lists_serialized message_flags 21). reflexivity.
Defined.

Lemma add_idempotent_witness :
  frozen {| bitfield := 1; frozen := false |} = false /\
  add message_flags {| bitfield := 1; frozen := false |} [RString "URGENT"]
  = Returned ({| bitfield := 17; frozen := false |}, {| bitfield := 17; frozen := false |})
  /\ add message_flags {| bitfield := 17; frozen := false |} [RString "URGENT"]
     = Returned ({| bitfield := 17; frozen := false |}, {| bitfield := 17; frozen := false |}).
Proof.
  split; [reflexivity|]. split; [reflexivity|].
  apply (add_idempotent message_flags {| bitfield := 1; frozen := false |}
           {| bitfield := 17; frozen := false |} {| bitfield := 17; frozen := false |}
           [RString "URGENT"]); reflexivity.
Defined.

Lemma remove_undoes_add_witness :
  frozen {| bitfield := 1; frozen := false |} = false /\
  to_int32 1 = 1 /\
  total_of message_flags [RString "URGENT"; RNumber 4] 0 = Returned 20 /\
  band 1 20 = 0 /\
  exists t1,
    add message_flags {| bitfield := 1; frozen := false |} [RString "URGENT"; RNumber 4]
    = Returned (t1, t1) /\
    remove message_flags t1 [RString "URGENT"; RNumber 4]
    = Returned ({| bitfield := 1; frozen := false |}, {| bitfield := 1; frozen := false |}).
Proof.
  split; [reflexivity|]. split; [reflexivity|]. split; [reflexivity|].
  split; [reflexivity|].
  apply (remove_undoes_add message_flags {| bitfield := 1; frozen := false |}
           [RString "URGENT"; RNumber 4] 20); reflexivity.
Defined.

End BitFieldFacts.
